(** * stm32-uart-logger: the logging macros of [logger.h] and the per-module
      support of [logger_module.h], as a shallow embedding.

    The two headers are macro and inline-function libraries.  Every macro is
    embedded as a function of the things its expansion mentions: its
    arguments, the lexical environment of the place where it is expanded
    ([__func__], [__LINE__], [CURRENT_LOG_MODULE]) and the machine state
    (the global [gLogLevel], the objects [log_inst_<name>], what was handed
    to [HAL_UART_Transmit]).

    [log_level_t] values are the integers of the enumeration, C strings are
    the lists of their characters before the terminating NUL, [char] arrays
    are lists of characters of the array's size. *)

From Stdlib Require Import ZArith List Ascii String DecimalString Lia.
From stdpp Require Import gmap strings.
Import ListNotations.

Local Open Scope Z_scope.

(* ======================================================================= *)
(** ** [logger.h]: typedefs and configuration constants                     *)
(* ======================================================================= *)

(** [typedef enum { ... } log_level_t;] *)
Definition log_level_t := Z.

Definition LOG_LEVEL_DEBUG : log_level_t := 0.
Definition LOG_LEVEL_INFO : log_level_t := 1.
Definition LOG_LEVEL_WARNING : log_level_t := 2.
Definition LOG_LEVEL_ERROR : log_level_t := 3.
Definition LOG_LEVEL_COUNT : log_level_t := 4.
Definition LOG_LEVEL_OFF : log_level_t := 99.

(** [#define LOG_BUFFER_SIZE 128] *)
Definition LOG_BUFFER_SIZE : nat := 128.

(** A string literal of the source, as the list of its characters. *)
Definition lit (s : string) : list ascii := list_ascii_of_string s.

Definition ESC : ascii := "027"%char.

(** ANSI escape codes for terminal colors. *)
Definition KNRM : list ascii := ESC :: lit "[0m".
Definition KRED : list ascii := ESC :: lit "[31m".
Definition KGRN : list ascii := ESC :: lit "[32m".
Definition KYEL : list ascii := ESC :: lit "[33m".
Definition KBLU : list ascii := ESC :: lit "[34m".
Definition KMAG : list ascii := ESC :: lit "[35m".
Definition KCYN : list ascii := ESC :: lit "[36m".
Definition KWHT : list ascii := ESC :: lit "[37m".

(* ======================================================================= *)
(** ** [logger_module.h]: the log instance                                  *)
(* ======================================================================= *)

(** [typedef struct { const char *name; log_level_t level; } log_instance_t;] *)
Record log_instance_t := { name : list ascii; level : log_level_t }.

(** A [log_instance_t *]: [NULL], or the address of the object
    [log_inst_<id>], which is written [Some id]. *)
Definition log_instance_ptr := option string.

(* ======================================================================= *)
(** ** The machine state and the monad of the embedding                     *)
(* ======================================================================= *)

(** One call [HAL_UART_Transmit(&huart1, pData, Size, HAL_MAX_DELAY)]: the
    contents of the array [pData] points to, and [Size]. *)
Record uart_tx := { pData : list ascii; Size : nat }.

(** The bytes a call asks the peripheral to send. *)
Definition payload (c : uart_tx) : list ascii := take (Size c) (pData c).

Record machine := {
  gLogLevel : log_level_t;                 (* the common symbol gLogLevel *)
  log_inst : gmap string log_instance_t;   (* the objects log_inst_<name> *)
  stale : nat -> ascii;                    (* what an automatic array holds
                                              before it is written *)
  huart1 : list uart_tx                    (* calls of HAL_UART_Transmit,
                                              oldest first *)
}.

Definition set_gLogLevel (v : log_level_t) (st : machine) : machine :=
  {| gLogLevel := v; log_inst := log_inst st;
     stale := stale st; huart1 := huart1 st |}.

Definition set_log_inst (m : gmap string log_instance_t) (st : machine) : machine :=
  {| gLogLevel := gLogLevel st; log_inst := m;
     stale := stale st; huart1 := huart1 st |}.

Definition set_huart1 (l : list uart_tx) (st : machine) : machine :=
  {| gLogLevel := gLogLevel st; log_inst := log_inst st;
     stale := stale st; huart1 := l |}.

(** Ways a run stops without a result: [assert] fails and aborts, the
    behaviour is undefined in C (a conversion without its argument, an access
    outside an array or through a pointer to no object), or the program does
    not link. *)
Inductive fault := assert_fail | undefined | link_error.

Inductive outcome (A : Type) :=
| Ok (a : A) (st : machine)
| Stop (f : fault).
Arguments Ok {A} a st.
Arguments Stop {A} f.

Definition M (A : Type) := machine -> outcome A.

Definition ret {A} (a : A) : M A := fun st => Ok a st.

Definition bind {A B} (c : M A) (k : A -> M B) : M B :=
  fun st => match c st with
            | Ok a st' => k a st'
            | Stop f => Stop f
            end.

Definition raise {A} (f : fault) : M A := fun _ => Stop f.

Declare Scope logger_scope.
Delimit Scope logger_scope with logger.
Notation "x <- c ;; k" := (bind c (fun x => k))
  (at level 100, c at next level, right associativity) : logger_scope.
Notation "c ;;; k" := (bind c (fun _ => k))
  (at level 100, right associativity) : logger_scope.
Local Open Scope logger_scope.

(** Lifting of a partial library function: no value is undefined behaviour. *)
Definition defined {A} (o : option A) : M A :=
  match o with
  | Some a => ret a
  | None => raise undefined
  end.

(* ======================================================================= *)
(** ** The C library functions the macros call                              *)
(* ======================================================================= *)

(** The arguments of a variadic call after default promotion: an integer
    ([int], and the narrower types promoted to it) or a pointer to a string. *)
Inductive va_arg := va_int (z : Z) | va_str (s : list ascii).

(** The value of an [int] and of an [unsigned int] of 32 bits. *)
Definition sint32 (z : Z) : Z := (z + 2 ^ 31) mod 2 ^ 32 - 2 ^ 31.
Definition uint32 (z : Z) : Z := z mod 2 ^ 32.

(** Decimal digits of an integer, with a minus sign when negative. *)
Definition decimal (z : Z) : list ascii :=
  lit (NilZero.string_of_int (Z.to_int z)).

(** One conversion specification [%c] applied to the next argument.  The
    conversions modelled are d, i, u, c and s without flags, width or
    precision; any other, or one whose argument has the wrong type, has no
    value here. *)
Definition convert (c : ascii) (a : va_arg) : option (list ascii) :=
  match a with
  | va_int z =>
      if (c =? "d")%char || (c =? "i")%char then Some (decimal (sint32 z))
      else if (c =? "u")%char then Some (decimal (uint32 z))
      else if (c =? "c")%char then Some [ascii_of_N (Z.to_N (z mod 256))]
      else None
  | va_str s =>
      if (c =? "s")%char then Some s else None
  end.

(** The full expansion of a format against its arguments: what [printf]
    would write with unlimited room.  Arguments left over are ignored. *)
Fixpoint vformat (fmt : list ascii) (ap : list va_arg) : option (list ascii) :=
  match fmt with
  | [] => Some []
  | c :: rest =>
      if (c =? "%")%char then
        match rest with
        | [] => None
        | d :: rest' =>
            if (d =? "%")%char then cons "%"%char <$> vformat rest' ap
            else match ap with
                 | [] => None
                 | a :: ap' =>
                     match convert d a with
                     | None => None
                     | Some t => app t <$> vformat rest' ap'
                     end
                 end
        end
      else cons c <$> vformat rest ap
  end.

(** Storing [bytes] at the start of the array [s]; a store past the end of
    the array has no value. *)
Fixpoint poke (s bytes : list ascii) {struct bytes} : option (list ascii) :=
  match bytes with
  | [] => Some s
  | b :: bs =>
      match s with
      | [] => None
      | _ :: s' => cons b <$> poke s' bs
      end
  end.

(** [snprintf(s, n, fmt, ...)]: at most [n - 1] characters of the expansion
    are stored, then a NUL; the result is the new array and the length of the
    full expansion. *)
Definition snprintf (s : list ascii) (n : nat) (fmt : list ascii)
    (ap : list va_arg) : option (list ascii * Z) :=
  out ← vformat fmt ap;
  match n with
  | O => Some (s, Z.of_nat (length out))
  | S m => s' ← poke s (take m out ++ [zero]);
           Some (s', Z.of_nat (length out))
  end.

(** The characters of an array before its first NUL. *)
Fixpoint c_str (s : list ascii) : list ascii :=
  match s with
  | [] => []
  | c :: s' => if (c =? zero)%char then [] else c :: c_str s'
  end.

(** [strlen(s)]: the index of the first NUL; an array without one is read
    past its end. *)
Fixpoint strlen (s : list ascii) : option nat :=
  match s with
  | [] => None
  | c :: s' => if (c =? zero)%char then Some O else S <$> strlen s'
  end.

(** [assert(e)] of [<assert.h>], as the header uses it (NDEBUG is nowhere
    defined). *)
Definition assert (e : bool) : M unit :=
  if e then ret tt else raise assert_fail.

(** [char a[n];] with automatic storage: its contents are indeterminate. *)
Definition auto_array (n : nat) : M (list ascii) :=
  fun st => Ok (map (stale st) (seq 0 n)) st.

(** [HAL_UART_Transmit(&huart1, pData, Size, HAL_MAX_DELAY)]: the external
    transmit primitive; the call is recorded. *)
Definition HAL_UART_Transmit (data : list ascii) (size : nat) : M unit :=
  fun st => Ok tt (set_huart1 (huart1 st ++ [{| pData := data; Size := size |}]) st).

(* ======================================================================= *)
(** ** [logger.h]: the global level and the logging macros                  *)
(* ======================================================================= *)

(** What a macro's expansion can see of the place where it is expanded.
    [CURRENT_LOG_MODULE] is the pointer [LOG_MODULE_REGISTER] or
    [LOG_MODULE_DECLARE] defined in that translation unit, [None] in a unit
    that includes [logger.h] alone. *)
Record call_site := {
  CURRENT_LOG_MODULE : log_instance_ptr;
  __func__ : list ascii;
  __LINE__ : Z
}.

(** [static inline void LOGGER_SET_LOGGING_LEVEL(log_level_t level)] *)
Definition LOGGER_SET_LOGGING_LEVEL (lvl : log_level_t) : M unit :=
  assert ((lvl >=? LOG_LEVEL_DEBUG) && (lvl <? LOG_LEVEL_COUNT)) ;;;
  fun st => Ok tt (set_gLogLevel lvl st).

(** [#define CHECK_LOG_LEVEL(severity) ((severity) >= gLogLevel ? 1 : 0)] *)
Definition CHECK_LOG_LEVEL (severity : log_level_t) : M Z :=
  fun st => Ok (if severity >=? gLogLevel st then 1 else 0) st.

(** [#define LOG_RAW(fmt, ...)] *)
Definition LOG_RAW (site : call_site) (fmt : list ascii) (ap : list va_arg) : M unit :=
  msg <- auto_array LOG_BUFFER_SIZE ;;
  r <- defined (snprintf msg LOG_BUFFER_SIZE fmt ap) ;;
  n <- defined (strlen (fst r)) ;;
  HAL_UART_Transmit (fst r) n.

(** [#define LOG_DEBUG(fmt, ...)] *)
Definition LOG_DEBUG (site : call_site) (fmt : list ascii) (ap : list va_arg) : M unit :=
  c <- CHECK_LOG_LEVEL LOG_LEVEL_DEBUG ;;
  if c =? 0 then ret tt else
    msg <- auto_array LOG_BUFFER_SIZE ;;
    r <- defined (snprintf msg LOG_BUFFER_SIZE
                    (KWHT ++ lit "[DBG][%s:%d]: " ++ fmt ++ KNRM)
                    (va_str (__func__ site) :: va_int (__LINE__ site) :: ap)) ;;
    n <- defined (strlen (fst r)) ;;
    HAL_UART_Transmit (fst r) n.

(** [#define LOG_INFO(fmt, ...)] *)
Definition LOG_INFO (site : call_site) (fmt : list ascii) (ap : list va_arg) : M unit :=
  c <- CHECK_LOG_LEVEL LOG_LEVEL_INFO ;;
  if c =? 0 then ret tt else
    msg <- auto_array LOG_BUFFER_SIZE ;;
    r <- defined (snprintf msg LOG_BUFFER_SIZE
                    (KGRN ++ lit "[INF][%s:%d]: " ++ KNRM ++ fmt)
                    (va_str (__func__ site) :: va_int (__LINE__ site) :: ap)) ;;
    n <- defined (strlen (fst r)) ;;
    HAL_UART_Transmit (fst r) n.

(** [#define LOG_WARNING(fmt, ...)] *)
Definition LOG_WARNING (site : call_site) (fmt : list ascii) (ap : list va_arg) : M unit :=
  c <- CHECK_LOG_LEVEL LOG_LEVEL_WARNING ;;
  if c =? 0 then ret tt else
    msg <- auto_array LOG_BUFFER_SIZE ;;
    r <- defined (snprintf msg LOG_BUFFER_SIZE
                    (KYEL ++ lit "[WRN][%s:%d]: " ++ KNRM ++ fmt)
                    (va_str (__func__ site) :: va_int (__LINE__ site) :: ap)) ;;
    n <- defined (strlen (fst r)) ;;
    HAL_UART_Transmit (fst r) n.

(** [#define LOG_ERROR(fmt, ...)] *)
Definition LOG_ERROR (site : call_site) (fmt : list ascii) (ap : list va_arg) : M unit :=
  c <- CHECK_LOG_LEVEL LOG_LEVEL_ERROR ;;
  if c =? 0 then ret tt else
    msg <- auto_array LOG_BUFFER_SIZE ;;
    r <- defined (snprintf msg LOG_BUFFER_SIZE
                    (KRED ++ lit "[ERR][%s:%d]: " ++ KNRM ++ fmt)
                    (va_str (__func__ site) :: va_int (__LINE__ site) :: ap)) ;;
    n <- defined (strlen (fst r)) ;;
    HAL_UART_Transmit (fst r) n.

(* ======================================================================= *)
(** ** [logger_module.h]: registration and the level setter                 *)
(* ======================================================================= *)

(** [#define LOG_MODULE_REGISTER(name, level)]: defines the object
    [log_inst_<name> = {#name, level}] and yields the unit's
    [CURRENT_LOG_MODULE].  A second definition of the same object does not
    link. *)
Definition LOG_MODULE_REGISTER (id : string) (lvl : log_level_t) : M log_instance_ptr :=
  fun st =>
    match log_inst st !! id with
    | Some _ => Stop link_error
    | None =>
        Ok (Some id)
           (set_log_inst (<[id := {| name := lit id; level := lvl |}]> (log_inst st)) st)
    end.

(** [#define LOG_MODULE_DECLARE(name)]: the unit's [CURRENT_LOG_MODULE]. *)
Definition LOG_MODULE_DECLARE (id : string) : log_instance_ptr := Some id.

(** [#define LOG_MODULE_NAME(name) (&log_inst_##name)] *)
Definition LOG_MODULE_NAME (id : string) : log_instance_ptr := Some id.

(** [static inline void LOG_MODULE_SET_LEVEL(log_instance_t *inst, log_level_t level)] *)
Definition LOG_MODULE_SET_LEVEL (inst : log_instance_ptr) (lvl : log_level_t) : M unit :=
  match inst with
  | Some a =>
      fun st =>
        match log_inst st !! a with
        | Some i =>
            Ok tt (set_log_inst
                     (<[a := {| name := name i; level := lvl |}]> (log_inst st)) st)
        | None => Stop undefined
        end
  | None => ret tt
  end.

(* ======================================================================= *)
(** ** The five logging macros under one name                               *)
(* ======================================================================= *)

Inductive log_macro := RAW | DEBUG | INFO | WARNING | ERROR.

Definition expand (m : log_macro) : call_site -> list ascii -> list va_arg -> M unit :=
  match m with
  | RAW => LOG_RAW
  | DEBUG => LOG_DEBUG
  | INFO => LOG_INFO
  | WARNING => LOG_WARNING
  | ERROR => LOG_ERROR
  end.

(** The severity a macro hands to [CHECK_LOG_LEVEL]; [LOG_RAW] has none. *)
Definition severity (m : log_macro) : option log_level_t :=
  match m with
  | RAW => None
  | DEBUG => Some LOG_LEVEL_DEBUG
  | INFO => Some LOG_LEVEL_INFO
  | WARNING => Some LOG_LEVEL_WARNING
  | ERROR => Some LOG_LEVEL_ERROR
  end.

(** The format a macro hands to [snprintf], after the concatenation of the
    adjacent string literals, and its argument list. *)
Definition format_of (m : log_macro) (fmt : list ascii) : list ascii :=
  match m with
  | RAW => fmt
  | DEBUG => KWHT ++ lit "[DBG][%s:%d]: " ++ fmt ++ KNRM
  | INFO => KGRN ++ lit "[INF][%s:%d]: " ++ KNRM ++ fmt
  | WARNING => KYEL ++ lit "[WRN][%s:%d]: " ++ KNRM ++ fmt
  | ERROR => KRED ++ lit "[ERR][%s:%d]: " ++ KNRM ++ fmt
  end.

Definition args_of (m : log_macro) (site : call_site) (ap : list va_arg) : list va_arg :=
  match m with
  | RAW => ap
  | _ => va_str (__func__ site) :: va_int (__LINE__ site) :: ap
  end.

(** Whether the macro's guard lets the call through in state [st]. *)
Definition passes (m : log_macro) (st : machine) : bool :=
  match severity m with
  | None => true
  | Some s => s >=? gLogLevel st
  end.

(** The guarded body shared by the five macros. *)
Definition emit (fmt : list ascii) (ap : list va_arg) : M unit :=
  msg <- auto_array LOG_BUFFER_SIZE ;;
  r <- defined (snprintf msg LOG_BUFFER_SIZE fmt ap) ;;
  n <- defined (strlen (fst r)) ;;
  HAL_UART_Transmit (fst r) n.

(** A run of calls, one after the other. *)
Record log_call := {
  call_macro : log_macro;
  call_at : call_site;
  call_fmt : list ascii;
  call_args : list va_arg
}.

Definition run_call (c : log_call) : M unit :=
  expand (call_macro c) (call_at c) (call_fmt c) (call_args c).

Fixpoint run_calls (cs : list log_call) : M unit :=
  match cs with
  | [] => ret tt
  | c :: cs' => run_call c ;;; run_calls cs'
  end.

(** The state an outcome ends in, and the payloads sent so far. *)
Definition final {A} (o : outcome A) : option machine :=
  match o with
  | Ok _ st => Some st
  | Stop _ => None
  end.

Definition sent (st : machine) : list (list ascii) := map payload (huart1 st).

(* ======================================================================= *)
(** ** The spec's wording, for comparison                                   *)
(* ======================================================================= *)

Module Spec.

(** Colors of the spec: DEBUG white, INFO green, WARNING yellow, ERROR red. *)
Definition color (m : log_macro) : list ascii :=
  match m with
  | RAW => []
  | DEBUG => KWHT
  | INFO => KGRN
  | WARNING => KYEL
  | ERROR => KRED
  end.

(** Tags of the spec. *)
Definition tag (m : log_macro) : list ascii :=
  match m with
  | RAW => []
  | DEBUG => lit "[DBG]"
  | INFO => lit "[INF]"
  | WARNING => lit "[WRN]"
  | ERROR => lit "[ERR]"
  end.

(** ["<color><TAG>[<func>:<line>]: <reset>"] *)
Definition header (m : log_macro) (site : call_site) : list ascii :=
  color m ++ tag m ++ lit "[" ++ __func__ site ++ lit ":"
    ++ decimal (sint32 (__LINE__ site)) ++ lit "]: " ++ KNRM.

(** ["<color><TAG>[<func>:<line>]: <reset><user text>"] *)
Definition global_layout (m : log_macro) (site : call_site) (text : list ascii) : list ascii :=
  header m site ++ text.

(** ["<color><TAG>[<module>][<func>:<line>]: <reset><user text>"] *)
Definition module_layout (m : log_macro) (module : list ascii) (site : call_site)
    (text : list ascii) : list ascii :=
  color m ++ tag m ++ lit "[" ++ module ++ lit "]" ++ lit "[" ++ __func__ site ++ lit ":"
    ++ decimal (sint32 (__LINE__ site)) ++ lit "]: " ++ KNRM ++ text.

(** The threshold of the spec: the module's when module logging is in use,
    else the global one. *)
Definition currentThreshold (site : call_site) (st : machine) : option log_level_t :=
  match CURRENT_LOG_MODULE site with
  | Some a => level <$> log_inst st !! a
  | None => Some (gLogLevel st)
  end.

End Spec.

(* ======================================================================= *)
(** ** Definitions the statements use                                       *)
(* ======================================================================= *)

(** The layout [LOG_DEBUG] writes: the reset code comes after the user text. *)
Definition debug_layout (site : call_site) (text : list ascii) : list ascii :=
  KWHT ++ lit "[DBG][" ++ __func__ site ++ lit ":"
    ++ decimal (sint32 (__LINE__ site)) ++ lit "]: " ++ text ++ KNRM.

(** The layout each macro writes, as it stands in the source. *)
Definition layout (m : log_macro) (site : call_site) (text : list ascii) : list ascii :=
  match m with
  | RAW => text
  | DEBUG => debug_layout site text
  | _ => Spec.global_layout m site text
  end.

(** Characters that are copied as they are: no conversion starts in [l]. *)
Definition plain (l : list ascii) : Prop := Forall (fun c => c <> "%"%char) l.

(** No NUL in [l]. *)
Definition clean (l : list ascii) : Prop := Forall (fun c => c <> zero) l.

(** The array [msg] after [snprintf] stored the expansion [out] in it. *)
Definition msg_after (st : machine) (out : list ascii) : list ascii :=
  take (LOG_BUFFER_SIZE - 1) out
    ++ zero :: drop (S (length (take (LOG_BUFFER_SIZE - 1) out)))
                 (map (stale st) (seq 0 LOG_BUFFER_SIZE)).

(** The call of the transmit primitive that follows. *)
Definition tx_of (st : machine) (out : list ascii) : uart_tx :=
  {| pData := msg_after st out;
     Size := length (c_str (take (LOG_BUFFER_SIZE - 1) out)) |}.

(** The payload of a call whose format expands to [out]: the expansion cut to
    the room the array leaves before its NUL, read back as a C string. *)
Definition wire (out : list ascii) : list ascii :=
  c_str (take (LOG_BUFFER_SIZE - 1) out).

(** What holds of a call of the transmit primitive made by a logging macro:
    the array has the size of the buffer, [Size] is its [strlen], the byte at
    that index is the NUL, and [Size] is below the size of the buffer. *)
Definition c_string_call (c : uart_tx) : Prop :=
  length (pData c) = LOG_BUFFER_SIZE
  /\ strlen (pData c) = Some (Size c)
  /\ pData c !! Size c = Some zero
  /\ (Size c < LOG_BUFFER_SIZE)%nat
  /\ length (payload c) = Size c
  /\ (length (payload c) <= 127)%nat.

(** What a run handed to the transmit primitive, when it ends normally. *)
Definition transmits {A} (o : outcome A) : option (list uart_tx) :=
  huart1 <$> final o.



(* ======================================================================= *)
(** ** States, call sites and runs of the examples                          *)
(* ======================================================================= *)

(** The machine at reset: [gLogLevel] is a common symbol, hence zero; no log
    instance is defined yet; nothing was transmitted. *)
Definition boot : machine :=
  {| gLogLevel := 0; log_inst := ∅; stale := fun _ => "?"%char; huart1 := [] |}.

(** Two modules registered as the README does, [device01] then [device02]. *)
Definition two_modules : M unit :=
  LOG_MODULE_REGISTER "device01" LOG_LEVEL_DEBUG ;;;
  LOG_MODULE_REGISTER "device02" LOG_LEVEL_INFO ;;;
  ret tt.

Definition registered : machine :=
  default boot (final (two_modules boot)).

(** A call site of the README's [main], in a unit without a module. *)
Definition main_site : call_site :=
  {| CURRENT_LOG_MODULE := None; __func__ := lit "main"; __LINE__ := 114 |}.

(** The call site of the README's [TestFunc], in the unit that registers the
    module [test]. *)
Definition test_site : call_site :=
  {| CURRENT_LOG_MODULE := Some "test";
     __func__ := lit "TestFunc"; __LINE__ := 16 |}.

(** The README's scenario up to the point where [main] has disabled the
    module [test]: the module is registered at DEBUG, the global level is set
    to WARNING, the module's level is set to OFF. *)
Definition test_disabled : M unit :=
  LOG_MODULE_REGISTER "test" LOG_LEVEL_DEBUG ;;;
  LOGGER_SET_LOGGING_LEVEL LOG_LEVEL_WARNING ;;;
  LOG_MODULE_SET_LEVEL (LOG_MODULE_NAME "test") LOG_LEVEL_OFF.

(** The text of the README's [TestFunc]. *)
Definition test_text : list ascii :=
  lit "Warning from test module" ++ ["013"%char; "010"%char].

(** A call site in a function whose name has 120 characters. *)
Definition long_site : call_site :=
  {| CURRENT_LOG_MODULE := None; __func__ := repeat "f"%char 120; __LINE__ := 7 |}.

(** The four calls of the README's loop body, at iteration 0. *)
Definition readme_calls : list log_call :=
  [ {| call_macro := DEBUG; call_fmt := lit "Debug msg iter: %u"; call_args := [va_int 0];
       call_at := {| CURRENT_LOG_MODULE := None; __func__ := lit "main"; __LINE__ := 112 |} |};
    {| call_macro := INFO; call_fmt := lit "Info msg iter: %u"; call_args := [va_int 0];
       call_at := {| CURRENT_LOG_MODULE := None; __func__ := lit "main"; __LINE__ := 113 |} |};
    {| call_macro := WARNING; call_fmt := lit "Warning msg iter: %u"; call_args := [va_int 0];
       call_at := {| CURRENT_LOG_MODULE := None; __func__ := lit "main"; __LINE__ := 114 |} |};
    {| call_macro := ERROR; call_fmt := lit "Error msg iter: %u"; call_args := [va_int 0];
       call_at := {| CURRENT_LOG_MODULE := None; __func__ := lit "main"; __LINE__ := 115 |} |} ].

(* ======================================================================= *)
(** ** Client programs: runs of the calls the two headers offer             *)
(* ======================================================================= *)

(** One statement of a client: a call of the global setter, of the module
    setter, a registration, or a logging macro. *)
Inductive api_call :=
| api_set_global (lvl : log_level_t)
| api_set_module (inst : log_instance_ptr) (lvl : log_level_t)
| api_register (id : string) (lvl : log_level_t)
| api_log (c : log_call).

Definition api_step (a : api_call) : M unit :=
  match a with
  | api_set_global lvl => LOGGER_SET_LOGGING_LEVEL lvl
  | api_set_module inst lvl => LOG_MODULE_SET_LEVEL inst lvl
  | api_register id lvl => LOG_MODULE_REGISTER id lvl ;;; ret tt
  | api_log c => run_call c
  end.

Fixpoint api_run (p : list api_call) : M unit :=
  match p with
  | [] => ret tt
  | a :: p' => api_step a ;;; api_run p'
  end.

(** What one statement that returns normally did to the machine. *)
Inductive effect (st : machine) : machine -> Prop :=
| effect_none : effect st st
| effect_global lvl :
    LOG_LEVEL_DEBUG <= lvl <= LOG_LEVEL_ERROR ->
    effect st (set_gLogLevel lvl st)
| effect_level a i lvl :
    log_inst st !! a = Some i ->
    effect st (set_log_inst (<[a := {| name := name i; level := lvl |}]> (log_inst st)) st)
| effect_register id lvl :
    log_inst st !! id = None ->
    effect st (set_log_inst (<[id := {| name := lit id; level := lvl |}]> (log_inst st)) st)
| effect_transmit out :
    effect st (set_huart1 (huart1 st ++ [tx_of st out]) st).

(** The global level is one of DEBUG .. ERROR. *)
Definition level_in_range (st : machine) : Prop :=
  LOG_LEVEL_DEBUG <= gLogLevel st <= LOG_LEVEL_ERROR.

(** Every object [log_inst_<id>] carries the string [#id] as its name. *)
Definition names_kept (st : machine) : Prop :=
  forall id i, log_inst st !! id = Some i -> name i = lit id.


(** The message of a call, as each macro lays it out, as it reaches the wire. *)
Definition message_of (c : log_call) : list ascii :=
  wire (layout (call_macro c) (call_at c)
          (default [] (vformat (call_fmt c) (call_args c)))).

(** The bytes every decorated message starts with: color, tag, bracket. *)
Definition badge (m : log_macro) : list ascii :=
  Spec.color m ++ Spec.tag m ++ lit "[".

(** The decoration [LOG_DEBUG] writes before the user text. *)
Definition debug_header (site : call_site) : list ascii :=
  KWHT ++ lit "[DBG][" ++ __func__ site ++ lit ":"
    ++ decimal (sint32 (__LINE__ site)) ++ lit "]: ".

(** Whether a conversion of [fmt] finds no argument left in [ap], the
    conversions before it being ones [convert] renders: the format asks for
    more arguments than the call passes, which is undefined in C whatever the
    conversion is. *)
Fixpoint starved (fmt : list ascii) (ap : list va_arg) : bool :=
  match fmt with
  | [] => false
  | c :: rest =>
      if (c =? "%")%char then
        match rest with
        | [] => false
        | d :: rest' =>
            if (d =? "%")%char then starved rest' ap
            else match ap with
                 | [] => true
                 | a :: ap' =>
                     match convert d a with
                     | None => false
                     | Some _ => starved rest' ap'
                     end
                 end
        end
      else starved rest ap
  end.

(** A client of the README's kind: two registrations, the global level, a
    module disabled, and the four macros. *)
Definition readme_client : list api_call :=
  [ api_register "main" LOG_LEVEL_DEBUG;
    api_register "test" LOG_LEVEL_DEBUG;
    api_set_global LOG_LEVEL_WARNING ]
  ++ map api_log readme_calls
  ++ [ api_set_module (LOG_MODULE_NAME "test") LOG_LEVEL_OFF;
       api_log {| call_macro := RAW; call_at := main_site;
                  call_fmt := ["010"%char]; call_args := [] |} ].

(* ======================================================================= *)
(** ** Facts about the library functions                                    *)
(* ======================================================================= *)

Section Library.

Implicit Types (s t r bytes out fmt : list ascii) (ap : list va_arg).

Lemma poke_fits s bytes :
  (length bytes <= length s)%nat ->
  poke s bytes = Some (bytes ++ drop (length bytes) s).
Proof.
  revert s. induction bytes as [|b bs IH]; intros s Hlen; simpl.
  - reflexivity.
  - destruct s as [|c s']; simpl in *; [lia|].
    rewrite IH by lia. reflexivity.
Qed.

Lemma poke_overrun s bytes :
  (length s < length bytes)%nat -> poke s bytes = None.
Proof.
  revert s. induction bytes as [|b bs IH]; intros s Hlen; simpl in *.
  - lia.
  - destruct s as [|c s']; simpl in *; [reflexivity|].
    rewrite IH by lia. reflexivity.
Qed.

Lemma c_str_length t : (length (c_str t) <= length t)%nat.
Proof.
  induction t as [|c t IH]; simpl; [lia|].
  destruct (c =? zero)%char; simpl; lia.
Qed.

Lemma c_str_no_nul t : Forall (fun c => c <> zero) t -> c_str t = t.
Proof.
  induction 1 as [|c t Hc _ IH]; simpl; [reflexivity|].
  apply Ascii.eqb_neq in Hc. rewrite Hc, IH. reflexivity.
Qed.

Lemma c_str_prefix t : exists r, t = c_str t ++ r.
Proof.
  induction t as [|c t [r IH]]; simpl.
  - exists []. reflexivity.
  - destruct (c =? zero)%char.
    + exists (c :: t). reflexivity.
    + exists r. simpl. congruence.
Qed.

Lemma c_str_clean t : Forall (fun c => c <> zero) (c_str t).
Proof.
  induction t as [|c t IH]; simpl; [constructor|].
  destruct (c =? zero)%char eqn:E; constructor; [|assumption].
  apply Ascii.eqb_neq. assumption.
Qed.

Lemma strlen_terminated t r :
  strlen (t ++ zero :: r) = Some (length (c_str t)).
Proof.
  induction t as [|c t IH]; simpl.
  - reflexivity.
  - destruct (c =? zero)%char; [reflexivity|].
    rewrite IH. reflexivity.
Qed.

Lemma take_strlen_terminated t r :
  take (length (c_str t)) (t ++ zero :: r) = c_str t.
Proof.
  induction t as [|c t IH]; simpl.
  - reflexivity.
  - destruct (c =? zero)%char; simpl; [reflexivity|].
    rewrite IH. reflexivity.
Qed.

Lemma strlen_sound s n :
  strlen s = Some n ->
  (n < length s)%nat /\ s !! n = Some zero /\ take n s = c_str s.
Proof.
  revert n. induction s as [|c s IH]; intros n; simpl; [discriminate|].
  destruct (c =? zero)%char eqn:E.
  - intros [= <-]. apply Ascii.eqb_eq in E. subst c.
    split; [lia|]. split; reflexivity.
  - destruct (strlen s) as [k|]; simpl; [|discriminate].
    intros [= <-]. destruct (IH k eq_refl) as (Hk & Hz & Ht).
    split; [lia|]. split; [assumption|]. simpl. congruence.
Qed.

Lemma snprintf_fits s n fmt ap out :
  vformat fmt ap = Some out ->
  (0 < n <= length s)%nat ->
  snprintf s n fmt ap =
    Some (take (n - 1) out ++ zero :: drop (S (length (take (n - 1) out))) s,
          Z.of_nat (length out)).
Proof.
  intros Hout [Hpos Hle]. unfold snprintf. rewrite Hout. simpl.
  destruct n as [|m]; [lia|]. replace (S m - 1)%nat with m by lia.
  rewrite poke_fits.
  - rewrite length_app, <- app_assoc. simpl.
    replace (length (take m out) + 1)%nat with (S (length (take m out))) by lia.
    reflexivity.
  - rewrite length_app, length_take. simpl. lia.
Qed.

Lemma snprintf_length s n fmt ap s' k :
  snprintf s n fmt ap = Some (s', k) -> length s' = length s.
Proof.
  unfold snprintf. destruct (vformat fmt ap) as [out|]; simpl; [|discriminate].
  destruct n as [|m]; [intros [= <- _]; reflexivity|].
  destruct (Nat.le_gt_cases (length (take m out ++ [zero])) (length s)) as [Hle|Hgt].
  - rewrite (poke_fits _ _ Hle). simpl. intros [= <- _].
    rewrite length_app, length_drop. lia.
  - rewrite (poke_overrun _ _ Hgt). discriminate.
Qed.

(** Nothing from index [n] on is written, whatever the expansion. *)
Lemma snprintf_frame s n fmt ap s' k i :
  snprintf s n fmt ap = Some (s', k) ->
  (n <= i)%nat -> s' !! i = s !! i.
Proof.
  unfold snprintf. destruct (vformat fmt ap) as [out|]; simpl; [|discriminate].
  destruct n as [|m]; [intros [= <- _]; reflexivity|].
  destruct (Nat.le_gt_cases (length (take m out ++ [zero])) (length s)) as [Hle|Hgt].
  - rewrite (poke_fits _ _ Hle). simpl. intros [= <- _] Hi.
    assert (Hl : (length (take m out ++ [zero]) <= S m)%nat).
    { rewrite length_app, length_take. simpl. lia. }
    rewrite lookup_app_r by lia. rewrite lookup_drop. f_equal. lia.
  - rewrite (poke_overrun _ _ Hgt). discriminate.
Qed.

(** *** The expansion of a format *)

Lemma vformat_plain l fmt ap :
  plain l -> vformat (l ++ fmt) ap = app l <$> vformat fmt ap.
Proof.
  induction 1 as [|c l Hc _ IH]; simpl.
  - destruct (vformat fmt ap); reflexivity.
  - apply Ascii.eqb_neq in Hc. rewrite Hc, IH.
    destruct (vformat fmt ap); reflexivity.
Qed.

Lemma vformat_conversion d a t fmt ap :
  d <> "%"%char -> convert d a = Some t ->
  vformat ("%"%char :: d :: fmt) (a :: ap) = app t <$> vformat fmt ap.
Proof.
  intros Hd Ht. apply Ascii.eqb_neq in Hd. simpl. rewrite Hd, Ht. reflexivity.
Qed.

Lemma vformat_then_plain l :
  plain l -> forall fmt ap out,
  vformat fmt ap = Some out -> vformat (fmt ++ l) ap = Some (out ++ l).
Proof.
  intros Hl fmt. remember (length fmt) as k eqn:Hk.
  revert fmt Hk. induction k as [k IH] using lt_wf_ind. intros fmt Hk ap out.
  destruct fmt as [|c rest]; simpl.
  - intros [= <-]. pose proof (vformat_plain l [] ap Hl) as H.
    simpl in H. rewrite !app_nil_r in H. exact H.
  - destruct (c =? "%")%char.
    + destruct rest as [|d rest']; [discriminate|]. simpl.
      destruct (d =? "%")%char.
      * destruct (vformat rest' ap) as [u|] eqn:Hu; simpl; [|discriminate].
        intros [= <-].
        rewrite (IH (length rest') ltac:(simpl in Hk; lia) rest' eq_refl ap u Hu).
        reflexivity.
      * destruct ap as [|a ap']; [discriminate|].
        destruct (convert d a) as [t|]; [|discriminate].
        destruct (vformat rest' ap') as [u|] eqn:Hu; simpl; [|discriminate].
        intros [= <-].
        rewrite (IH (length rest') ltac:(simpl in Hk; lia) rest' eq_refl ap' u Hu).
        simpl. rewrite app_assoc. reflexivity.
    + destruct (vformat rest ap) as [u|] eqn:Hu; simpl; [|discriminate].
      intros [= <-].
      rewrite (IH (length rest) ltac:(simpl in Hk; lia) rest eq_refl ap u Hu).
      reflexivity.
Qed.

End Library.

(* ======================================================================= *)
(** ** What one expansion of a logging macro does                           *)
(* ======================================================================= *)

Arguments decimal : simpl never.
Arguments sint32 : simpl never.

Ltac solve_plain := unfold plain; repeat constructor; discriminate.

Section Expansion.

Implicit Types (m : log_macro) (site : call_site) (st : machine)
               (fmt out text : list ascii) (ap : list va_arg).

Lemma emit_ok fmt ap out st :
  vformat fmt ap = Some out ->
  emit fmt ap st = Ok tt (set_huart1 (huart1 st ++ [tx_of st out]) st).
Proof.
  intros Hout. unfold emit, bind, auto_array.
  rewrite (snprintf_fits _ LOG_BUFFER_SIZE _ _ _ Hout).
  2:{ rewrite length_map, length_seq. unfold LOG_BUFFER_SIZE. lia. }
  cbn [defined ret fst]. rewrite strlen_terminated. reflexivity.
Qed.

Lemma emit_undefined fmt ap st :
  vformat fmt ap = None -> emit fmt ap st = Stop undefined.
Proof.
  intros Hout. unfold emit, bind, auto_array, snprintf.
  rewrite Hout. reflexivity.
Qed.

Lemma expand_unfold m site fmt ap st :
  expand m site fmt ap st =
    if passes m st then emit (format_of m fmt) (args_of m site ap) st
    else Ok tt st.
Proof.
  destruct m; [reflexivity|..];
    cbv [expand LOG_DEBUG LOG_INFO LOG_WARNING LOG_ERROR passes severity
         CHECK_LOG_LEVEL format_of args_of];
    unfold bind at 1;
    match goal with |- context [?s >=? gLogLevel st] =>
      destruct (s >=? gLogLevel st) end; reflexivity.
Qed.

Lemma payload_tx_of st out :
  payload (tx_of st out) = c_str (take (LOG_BUFFER_SIZE - 1) out).
Proof. unfold payload, tx_of, msg_after. cbn [pData Size]. apply take_strlen_terminated. Qed.

Lemma length_msg_after st out : length (msg_after st out) = LOG_BUFFER_SIZE.
Proof.
  unfold msg_after. rewrite length_app. cbn [length].
  rewrite length_drop, length_map, length_seq, length_take.
  unfold LOG_BUFFER_SIZE. lia.
Qed.

(** *** The expansion of the decorated formats *)

(** The prefix ["[TAG][%s:%d]: "] that follows the color, conversion by
    conversion. *)
Lemma vformat_prefix tag site fmt ap :
  plain tag ->
  vformat (tag ++ lit "[%s:%d]: " ++ fmt)
          (va_str (__func__ site) :: va_int (__LINE__ site) :: ap)
    = app (tag ++ lit "[" ++ __func__ site ++ lit ":"
             ++ decimal (sint32 (__LINE__ site)) ++ lit "]: ")
        <$> vformat fmt ap.
Proof.
  intros Htag.
  change (tag ++ lit "[%s:%d]: " ++ fmt)
    with (tag ++ lit "[" ++ "%"%char :: "s"%char
            :: lit ":" ++ "%"%char :: "d"%char :: lit "]: " ++ fmt).
  rewrite vformat_plain by assumption.
  rewrite vformat_plain by solve_plain.
  rewrite (vformat_conversion "s" _ (__func__ site)) by (reflexivity || discriminate).
  rewrite vformat_plain by solve_plain.
  rewrite (vformat_conversion "d" _ (decimal (sint32 (__LINE__ site))))
    by (reflexivity || discriminate).
  rewrite vformat_plain by solve_plain.
  destruct (vformat fmt ap) as [text|]; cbn [fmap option_fmap option_map]; [|reflexivity].
  rewrite <- !app_assoc. reflexivity.
Qed.

Lemma vformat_debug site fmt ap text :
  vformat fmt ap = Some text ->
  vformat (format_of DEBUG fmt) (args_of DEBUG site ap)
    = Some (debug_layout site text).
Proof.
  intros Htext.
  pose proof (vformat_then_plain KNRM ltac:(solve_plain) fmt ap text Htext) as H.
  unfold format_of, args_of, debug_layout.
  rewrite vformat_plain by solve_plain.
  change (lit "[DBG][%s:%d]: " ++ fmt ++ KNRM)
    with (lit "[DBG]" ++ lit "[%s:%d]: " ++ fmt ++ KNRM).
  rewrite vformat_prefix by solve_plain.
  rewrite H. cbn [fmap option_fmap option_map].
  rewrite <- !app_assoc. reflexivity.
Qed.

Lemma vformat_decorated m site fmt ap text :
  m = INFO \/ m = WARNING \/ m = ERROR ->
  vformat fmt ap = Some text ->
  vformat (format_of m fmt) (args_of m site ap)
    = Some (Spec.global_layout m site text).
Proof.
  intros Hm Htext.
  destruct Hm as [-> | [-> | ->]];
    unfold format_of, args_of, Spec.global_layout, Spec.header, Spec.color, Spec.tag;
    rewrite vformat_plain by solve_plain;
    [ change (lit "[INF][%s:%d]: " ++ KNRM ++ fmt)
        with (lit "[INF]" ++ lit "[%s:%d]: " ++ KNRM ++ fmt)
    | change (lit "[WRN][%s:%d]: " ++ KNRM ++ fmt)
        with (lit "[WRN]" ++ lit "[%s:%d]: " ++ KNRM ++ fmt)
    | change (lit "[ERR][%s:%d]: " ++ KNRM ++ fmt)
        with (lit "[ERR]" ++ lit "[%s:%d]: " ++ KNRM ++ fmt) ];
    rewrite vformat_prefix by solve_plain;
    rewrite vformat_plain by solve_plain;
    rewrite Htext; cbn [fmap option_fmap option_map];
    rewrite <- !app_assoc; reflexivity.
Qed.

End Expansion.

(* ======================================================================= *)
(** ** What reaches the wire                                                *)
(* ======================================================================= *)

Section Wire.

Implicit Types (m : log_macro) (site : call_site) (st : machine)
               (fmt out text h : list ascii) (ap : list va_arg).

Lemma uint_clean d : clean (lit (NilEmpty.string_of_uint d)).
Proof. induction d; simpl; constructor; (discriminate || assumption). Qed.

Lemma decimal_clean z : clean (decimal z).
Proof.
  unfold decimal. destruct (Z.to_int z) as [d|d]; simpl.
  - destruct d; try apply uint_clean. repeat constructor; discriminate.
  - constructor; [discriminate|].
    destruct d; try apply uint_clean. repeat constructor; discriminate.
Qed.

Lemma c_str_app_clean h t : clean h -> c_str (h ++ t) = h ++ c_str t.
Proof.
  induction 1 as [|c h Hc _ IH]; simpl; [reflexivity|].
  apply Ascii.eqb_neq in Hc. rewrite Hc, IH. reflexivity.
Qed.

Lemma wire_short out :
  (length out < LOG_BUFFER_SIZE)%nat -> clean out -> wire out = out.
Proof.
  intros Hlen Hc. unfold wire. rewrite take_ge by lia. apply c_str_no_nul, Hc.
Qed.

Lemma wire_length out : (length (wire out) < LOG_BUFFER_SIZE)%nat.
Proof.
  unfold wire. pose proof (c_str_length (take (LOG_BUFFER_SIZE - 1) out)) as H.
  rewrite length_take in H. unfold LOG_BUFFER_SIZE in *. lia.
Qed.

Lemma wire_long out :
  (LOG_BUFFER_SIZE <= length out)%nat -> clean (take (LOG_BUFFER_SIZE - 1) out) ->
  wire out = take (LOG_BUFFER_SIZE - 1) out
  /\ length (wire out) = (LOG_BUFFER_SIZE - 1)%nat.
Proof.
  intros Hlen Hc. unfold wire. rewrite (c_str_no_nul _ Hc).
  split; [reflexivity|]. rewrite length_take. lia.
Qed.

Lemma wire_prefix h text :
  (length h < LOG_BUFFER_SIZE)%nat -> clean h -> h `prefix_of` wire (h ++ text).
Proof.
  intros Hlen Hc. unfold wire. rewrite take_app.
  rewrite take_ge by lia. rewrite (c_str_app_clean _ _ Hc).
  apply prefix_app_r. reflexivity.
Qed.

Lemma header_clean m site : clean (__func__ site) -> clean (Spec.header m site).
Proof.
  intros Hf. unfold Spec.header, clean.
  rewrite !Forall_app. repeat split; try assumption; try apply decimal_clean;
    destruct m; repeat constructor; discriminate.
Qed.

Lemma expand_passes m site fmt ap out st :
  passes m st = true ->
  vformat (format_of m fmt) (args_of m site ap) = Some out ->
  expand m site fmt ap st = Ok tt (set_huart1 (huart1 st ++ [tx_of st out]) st).
Proof. intros Hp Hout. rewrite expand_unfold, Hp. apply emit_ok, Hout. Qed.

Lemma expand_filtered m site fmt ap st :
  passes m st = false -> expand m site fmt ap st = Ok tt st.
Proof. intros Hp. rewrite expand_unfold, Hp. reflexivity. Qed.

Lemma sent_snoc st c :
  sent (set_huart1 (huart1 st ++ [c]) st) = sent st ++ [payload c].
Proof. unfold sent. cbn [huart1 set_huart1]. rewrite map_app. reflexivity. Qed.

(** The expansion of each macro's format is its layout around the
    expansion of the caller's format. *)
Lemma vformat_layout m site fmt ap text :
  vformat fmt ap = Some text ->
  vformat (format_of m fmt) (args_of m site ap) = Some (layout m site text).
Proof.
  intros Htext. destruct m.
  - exact Htext.
  - apply vformat_debug, Htext.
  - apply vformat_decorated; auto.
  - apply vformat_decorated; auto.
  - apply vformat_decorated; auto.
Qed.

(** A passing call puts one payload on the wire: its layout, cut. *)
Lemma expand_sent m site fmt ap text st :
  passes m st = true ->
  vformat fmt ap = Some text ->
  exists st',
    expand m site fmt ap st = Ok tt st'
    /\ sent st' = sent st ++ [wire (layout m site text)]
    /\ gLogLevel st' = gLogLevel st
    /\ log_inst st' = log_inst st.
Proof.
  intros Hp Htext.
  pose proof (vformat_layout m site fmt ap text Htext) as Hout.
  eexists. split; [apply (expand_passes _ _ _ _ _ _ Hp Hout)|].
  rewrite sent_snoc, payload_tx_of. repeat split.
Qed.

End Wire.

(* ======================================================================= *)
(** ** The severity filter                                                  *)
(* ======================================================================= *)

(** C3.  With the threshold [thr] in [gLogLevel], [CHECK_LOG_LEVEL(sev)]
    yields 1 exactly when [sev >= thr] as integers and 0 otherwise, and leaves
    the machine as it was.  [LOG_LEVEL_OFF] is above [LOG_LEVEL_ERROR], so
    with the threshold [LOG_LEVEL_OFF] the check yields 0 for DEBUG, INFO,
    WARNING and ERROR. *)
Theorem CHECK_LOG_LEVEL_is_ge (sev thr : log_level_t) (st : machine) :
  (exists r,
     CHECK_LOG_LEVEL sev (set_gLogLevel thr st) = Ok r (set_gLogLevel thr st)
     /\ (r = 1 <-> sev >= thr) /\ (r = 0 <-> ~ sev >= thr))
  /\ LOG_LEVEL_ERROR < LOG_LEVEL_OFF
  /\ Forall (fun s => CHECK_LOG_LEVEL s (set_gLogLevel LOG_LEVEL_OFF st)
                      = Ok 0 (set_gLogLevel LOG_LEVEL_OFF st))
       [LOG_LEVEL_DEBUG; LOG_LEVEL_INFO; LOG_LEVEL_WARNING; LOG_LEVEL_ERROR].
Proof.
  split; [|split].
  - unfold CHECK_LOG_LEVEL. cbn [gLogLevel set_gLogLevel].
    destruct (Z.geb_spec sev thr) as [Hge|Hlt].
    + exists 1. split; [reflexivity|]. split; split; intros; try lia; reflexivity.
    + exists 0. split; [reflexivity|]. split; split; intros; try lia; reflexivity.
  - reflexivity.
  - repeat constructor.
Qed.

(** C4.  [LOGGER_SET_LOGGING_LEVEL(level)] stores [level] in [gLogLevel] and
    changes nothing else when [level] is one of DEBUG .. ERROR; for every
    other value, among them [LOG_LEVEL_COUNT] and [LOG_LEVEL_OFF], its
    assertion fails and nothing is stored. *)
Theorem LOGGER_SET_LOGGING_LEVEL_validates (lvl : log_level_t) (st : machine) :
  (LOG_LEVEL_DEBUG <= lvl <= LOG_LEVEL_ERROR ->
     LOGGER_SET_LOGGING_LEVEL lvl st = Ok tt (set_gLogLevel lvl st)
     /\ gLogLevel (set_gLogLevel lvl st) = lvl)
  /\ (~ LOG_LEVEL_DEBUG <= lvl <= LOG_LEVEL_ERROR ->
        LOGGER_SET_LOGGING_LEVEL lvl st = Stop assert_fail)
  /\ LOGGER_SET_LOGGING_LEVEL LOG_LEVEL_OFF st = Stop assert_fail
  /\ LOGGER_SET_LOGGING_LEVEL LOG_LEVEL_COUNT st = Stop assert_fail.
Proof.
  unfold LOGGER_SET_LOGGING_LEVEL, bind, assert,
    LOG_LEVEL_DEBUG, LOG_LEVEL_ERROR, LOG_LEVEL_COUNT.
  split; [|split; [|split; reflexivity]].
  - intros Hin.
    destruct (Z.geb_spec lvl 0); [|lia]. destruct (Z.ltb_spec lvl 4); [|lia].
    split; reflexivity.
  - intros Hout.
    destruct (Z.geb_spec lvl 0); [|reflexivity].
    destruct (Z.ltb_spec lvl 4); [lia|reflexivity].
Qed.

Lemma LOGGER_SET_LOGGING_LEVEL_validates_witness :
  (LOG_LEVEL_DEBUG <= LOG_LEVEL_WARNING <= LOG_LEVEL_ERROR)
  /\ LOGGER_SET_LOGGING_LEVEL LOG_LEVEL_WARNING boot
       = Ok tt (set_gLogLevel LOG_LEVEL_WARNING boot)
  /\ ~ LOG_LEVEL_DEBUG <= -1 <= LOG_LEVEL_ERROR
  /\ LOGGER_SET_LOGGING_LEVEL (-1) boot = Stop assert_fail.
Proof.
  assert (Hin : LOG_LEVEL_DEBUG <= LOG_LEVEL_WARNING <= LOG_LEVEL_ERROR)
    by (unfold LOG_LEVEL_DEBUG, LOG_LEVEL_WARNING, LOG_LEVEL_ERROR; lia).
  assert (Hout : ~ LOG_LEVEL_DEBUG <= -1 <= LOG_LEVEL_ERROR)
    by (unfold LOG_LEVEL_DEBUG, LOG_LEVEL_ERROR; lia).
  split; [exact Hin|]. split.
  - exact (proj1 (proj1 (LOGGER_SET_LOGGING_LEVEL_validates LOG_LEVEL_WARNING boot) Hin)).
  - split; [exact Hout|].
    exact (proj1 (proj2 (LOGGER_SET_LOGGING_LEVEL_validates (-1) boot)) Hout).
Defined.

(* ======================================================================= *)
(** ** The per-module level setter                                          *)
(* ======================================================================= *)

(** C5.  [LOG_MODULE_SET_LEVEL(inst, level)] checks nothing about [level]:
    through a pointer to a log instance it stores [level], whatever integer it
    is, in that instance's [level] field and changes nothing else; through
    [NULL] it returns normally and leaves the machine as it was. *)
Theorem LOG_MODULE_SET_LEVEL_unchecked (h : log_instance_ptr) (lvl : log_level_t)
    (st : machine) :
  match h with
  | None => LOG_MODULE_SET_LEVEL h lvl st = Ok tt st
  | Some a =>
      forall i, log_inst st !! a = Some i ->
      exists st',
        LOG_MODULE_SET_LEVEL h lvl st = Ok tt st'
        /\ log_inst st' !! a = Some {| name := name i; level := lvl |}
        /\ (forall b, b <> a -> log_inst st' !! b = log_inst st !! b)
        /\ gLogLevel st' = gLogLevel st
        /\ huart1 st' = huart1 st
        /\ stale st' = stale st
  end.
Proof.
  destruct h as [a|]; [|reflexivity].
  intros i Hi. unfold LOG_MODULE_SET_LEVEL. rewrite Hi.
  eexists. split; [reflexivity|]. cbn [log_inst set_log_inst gLogLevel huart1 stale].
  split; [apply lookup_insert_eq|].
  split; [|repeat split].
  intros b Hb. apply lookup_insert_ne. congruence.
Qed.

Lemma LOG_MODULE_SET_LEVEL_unchecked_witness :
  log_inst registered !! "device01"
    = Some {| name := lit "device01"; level := LOG_LEVEL_DEBUG |}
  /\ exists st',
       LOG_MODULE_SET_LEVEL (LOG_MODULE_NAME "device01") LOG_LEVEL_OFF registered
         = Ok tt st'
       /\ log_inst st' !! "device01"
            = Some {| name := lit "device01"; level := LOG_LEVEL_OFF |}.
Proof.
  assert (H : log_inst registered !! "device01"
              = Some {| name := lit "device01"; level := LOG_LEVEL_DEBUG |})
    by (vm_compute; reflexivity).
  split; [exact H|].
  destruct (LOG_MODULE_SET_LEVEL_unchecked
              (LOG_MODULE_NAME "device01") LOG_LEVEL_OFF registered _ H)
    as (st' & Hrun & Hlook & _).
  exists st'. split; [exact Hrun | exact Hlook].
Defined.

(** C9.  For two log instances at different addresses, setting the level of
    the first through [LOG_MODULE_SET_LEVEL] leaves the [name] and [level]
    fields of the second as they were, and every logging macro expanded where
    the second is [CURRENT_LOG_MODULE] passes or is filtered, and transmits,
    exactly as before the call. *)
Theorem LOG_MODULE_SET_LEVEL_frame (a b : string) (ia ib : log_instance_t)
    (lvl : log_level_t) (st : machine) :
  a <> b ->
  log_inst st !! a = Some ia ->
  log_inst st !! b = Some ib ->
  exists st',
    LOG_MODULE_SET_LEVEL (LOG_MODULE_NAME a) lvl st = Ok tt st'
    /\ log_inst st' !! b = Some ib
    /\ forall m site fmt ap,
         CURRENT_LOG_MODULE site = Some b ->
         passes m st' = passes m st
         /\ transmits (expand m site fmt ap st')
            = transmits (expand m site fmt ap st).
Proof.
  intros Hab Ha Hb. unfold LOG_MODULE_NAME, LOG_MODULE_SET_LEVEL. rewrite Ha.
  eexists. split; [reflexivity|]. split.
  - cbn [log_inst set_log_inst]. rewrite lookup_insert_ne by assumption. exact Hb.
  - intros m site fmt ap _. split; [reflexivity|].
    rewrite !expand_unfold.
    change (passes m (set_log_inst (<[a:={| name := name ia; level := lvl |}]> (log_inst st)) st))
      with (passes m st).
    destruct (passes m st); [|reflexivity].
    destruct (vformat (format_of m fmt) (args_of m site ap)) as [out|] eqn:Hout.
    + rewrite !(emit_ok _ _ _ _ Hout). reflexivity.
    + rewrite !(emit_undefined _ _ _ Hout). reflexivity.
Qed.

Lemma LOG_MODULE_SET_LEVEL_frame_witness :
  exists st',
    LOG_MODULE_SET_LEVEL (LOG_MODULE_NAME "device01") LOG_LEVEL_OFF registered
      = Ok tt st'
    /\ log_inst st' !! "device02"
         = Some {| name := lit "device02"; level := LOG_LEVEL_INFO |}.
Proof.
  destruct (LOG_MODULE_SET_LEVEL_frame "device01" "device02"
              {| name := lit "device01"; level := LOG_LEVEL_DEBUG |}
              {| name := lit "device02"; level := LOG_LEVEL_INFO |}
              LOG_LEVEL_OFF registered)
    as (st' & Hrun & Hb & _).
  - discriminate.
  - vm_compute. reflexivity.
  - vm_compute. reflexivity.
  - exists st'. split; [exact Hrun | exact Hb].
Defined.

(* ======================================================================= *)
(** ** Which threshold the macros consult                                   *)
(* ======================================================================= *)

(** C1.  The guard of the logging macros reads [gLogLevel] alone: no macro
    mentions [CURRENT_LOG_MODULE], and whether a call passes does not depend
    on the log instances.  In the README's scenario, once the module [test] is
    disabled, the threshold the spec names for a call in that module is OFF,
    above WARNING, yet [LOG_WARNING] expanded in [TestFunc] transmits its
    message, in the layout without the module's name. *)
Theorem module_level_not_consulted :
  (forall m insts st, passes m (set_log_inst insts st) = passes m st)
  /\ exists st1 st2,
       test_disabled boot = Ok tt st1
       /\ Spec.currentThreshold test_site st1 = Some LOG_LEVEL_OFF
       /\ LOG_LEVEL_WARNING < LOG_LEVEL_OFF
       /\ LOG_WARNING test_site test_text [] st1 = Ok tt st2
       /\ sent st2 = [Spec.global_layout WARNING test_site test_text]
       /\ Spec.global_layout WARNING test_site test_text
          <> Spec.module_layout WARNING (lit "test") test_site test_text.
Proof.
  split; [reflexivity|].
  eexists. eexists.
  split; [vm_compute; reflexivity|].
  split; [vm_compute; reflexivity|].
  split; [reflexivity|].
  split; [vm_compute; reflexivity|].
  split; [vm_compute; reflexivity|].
  vm_compute. discriminate.
Qed.

(* ======================================================================= *)
(** ** The layout of a decorated message                                    *)
(* ======================================================================= *)

(** C2, as stated, fails for [LOG_DEBUG]: the message of [LOG_DEBUG("hi")]
    ends with the reset code, where the stated layout has it before the user
    text. *)
Lemma LOG_DEBUG_resets_after_text :
  vformat (lit "hi") [] = Some (lit "hi")
  /\ passes DEBUG boot = true
  /\ sent <$> final (LOG_DEBUG main_site (lit "hi") [] boot)
     = Some [KWHT ++ lit "[DBG][main:114]: hi" ++ KNRM]
  /\ Spec.global_layout DEBUG main_site (lit "hi")
     = KWHT ++ lit "[DBG][main:114]: " ++ KNRM ++ lit "hi"
  /\ KWHT ++ lit "[DBG][main:114]: hi" ++ KNRM
     <> Spec.global_layout DEBUG main_site (lit "hi").
Proof.
  repeat split; try (vm_compute; reflexivity).
  vm_compute. discriminate.
Qed.

Lemma wire_prefix_of (out : list ascii) : wire out `prefix_of` out.
Proof.
  unfold wire. transitivity (take (LOG_BUFFER_SIZE - 1) out).
  - destruct (c_str_prefix (take (LOG_BUFFER_SIZE - 1) out)) as [r Hr].
    exists r. exact Hr.
  - apply prefix_take.
Qed.

(** C2, amended.  For global logging, that is at a call site of a unit that
    includes [logger.h] alone and has no [CURRENT_LOG_MODULE], a decorated
    macro whose guard passes transmits one message: the first
    [LOG_BUFFER_SIZE - 1] bytes, read as a C string, of
    [<color><TAG>[<func>:<line>]: <reset><user text>] for INFO, WARNING and
    ERROR with green, yellow and red, and of
    [<color>[DBG][<func>:<line>]: <user text><reset>] for DEBUG with white.
    That is the whole line whenever it is shorter than the buffer and holds no
    NUL.  Nothing is stated of a call site with a module. *)
Theorem decorated_message_layout (m : log_macro) (site : call_site)
    (fmt : list ascii) (ap : list va_arg) (text : list ascii) (st : machine) :
  CURRENT_LOG_MODULE site = None ->
  m <> RAW ->
  passes m st = true ->
  vformat fmt ap = Some text ->
  let position :=
    lit "[" ++ __func__ site ++ lit ":" ++ decimal (sint32 (__LINE__ site)) ++ lit "]: " in
  let line :=
    match m with
    | RAW => text
    | DEBUG => KWHT ++ lit "[DBG]" ++ position ++ text ++ KNRM
    | INFO => KGRN ++ lit "[INF]" ++ position ++ KNRM ++ text
    | WARNING => KYEL ++ lit "[WRN]" ++ position ++ KNRM ++ text
    | ERROR => KRED ++ lit "[ERR]" ++ position ++ KNRM ++ text
    end in
  exists st',
    expand m site fmt ap st = Ok tt st'
    /\ sent st' = sent st ++ [wire line]
    /\ wire line `prefix_of` line
    /\ ((length line < LOG_BUFFER_SIZE)%nat -> clean line -> wire line = line).
Proof.
  intros _ Hm Hp Htext position line.
  assert (Hline : line = layout m site text).
  { subst line position. destruct m; try reflexivity;
      unfold layout, debug_layout, Spec.global_layout, Spec.header, Spec.color, Spec.tag;
      rewrite <- ?app_assoc; reflexivity. }
  destruct (expand_sent m site fmt ap text st Hp Htext) as (st' & Hrun & Hsent & _).
  exists st'. rewrite Hline. split; [exact Hrun|]. split; [exact Hsent|].
  split; [apply wire_prefix_of|]. apply wire_short.
Qed.

Lemma decorated_message_layout_witness :
  CURRENT_LOG_MODULE main_site = None
  /\ passes INFO boot = true
  /\ vformat (lit "Info msg iter: %u") [va_int 2] = Some (lit "Info msg iter: 2")
  /\ exists st',
       LOG_INFO main_site (lit "Info msg iter: %u") [va_int 2] boot = Ok tt st'
       /\ sent st' = [KGRN ++ lit "[INF][main:114]: " ++ KNRM ++ lit "Info msg iter: 2"].
Proof.
  assert (Hsite : CURRENT_LOG_MODULE main_site = None) by reflexivity.
  assert (Hp : passes INFO boot = true) by reflexivity.
  assert (Htext : vformat (lit "Info msg iter: %u") [va_int 2]
                  = Some (lit "Info msg iter: 2")) by (vm_compute; reflexivity).
  split; [exact Hsite|]. split; [exact Hp|]. split; [exact Htext|].
  destruct (decorated_message_layout INFO main_site (lit "Info msg iter: %u")
              [va_int 2] (lit "Info msg iter: 2") boot Hsite)
    as (st' & Hrun & Hsent & _ & Hwhole).
  - discriminate.
  - exact Hp.
  - exact Htext.
  - exists st'. split; [exact Hrun|].
    rewrite Hsent, Hwhole.
    + reflexivity.
    + vm_compute. lia.
    + unfold clean. vm_compute. repeat constructor; discriminate.
Defined.

(* ======================================================================= *)
(** ** Truncation                                                           *)
(* ======================================================================= *)

(** C6, as stated, fails: an expansion of 200 bytes is cut to 127 bytes on
    the wire, one less than [LOG_BUFFER_SIZE]. *)
Lemma truncation_is_not_to_capacity :
  vformat (repeat "a"%char 200) [] = Some (repeat "a"%char 200)
  /\ (LOG_BUFFER_SIZE < length (repeat "a"%char 200))%nat
  /\ sent <$> final (LOG_RAW main_site (repeat "a"%char 200) [] boot)
     = Some [repeat "a"%char 127]
  /\ length (repeat "a"%char 127) <> LOG_BUFFER_SIZE.
Proof.
  repeat split; try (vm_compute; reflexivity).
  - vm_compute. lia.
  - vm_compute. lia.
Qed.

(** C6, amended.  When the expansion of a macro's format does not fit the
    buffer with its NUL, a passing call returns normally and the array handed
    to the transmit primitive holds exactly the first [LOG_BUFFER_SIZE - 1]
    bytes of the expansion followed by a NUL, [LOG_BUFFER_SIZE] bytes in all:
    no store falls outside the array.  The payload is that C string, of
    [LOG_BUFFER_SIZE - 1] bytes when none of them is a NUL.  A filtered call
    returns normally too. *)
Theorem oversized_expansion_truncated (m : log_macro) (site : call_site)
    (fmt : list ascii) (ap : list va_arg) (out : list ascii) (st : machine) :
  vformat (format_of m fmt) (args_of m site ap) = Some out ->
  (LOG_BUFFER_SIZE <= length out)%nat ->
  if passes m st then
    exists c,
      expand m site fmt ap st = Ok tt (set_huart1 (huart1 st ++ [c]) st)
      /\ pData c = take (LOG_BUFFER_SIZE - 1) out ++ [zero]
      /\ length (pData c) = LOG_BUFFER_SIZE
      /\ payload c = c_str (take (LOG_BUFFER_SIZE - 1) out)
      /\ (Size c <= LOG_BUFFER_SIZE - 1)%nat
      /\ (clean (take (LOG_BUFFER_SIZE - 1) out) ->
            payload c = take (LOG_BUFFER_SIZE - 1) out
            /\ Size c = (LOG_BUFFER_SIZE - 1)%nat)
  else expand m site fmt ap st = Ok tt st.
Proof.
  intros Hout Hlen. destruct (passes m st) eqn:Hp.
  2:{ apply expand_filtered, Hp. }
  exists (tx_of st out).
  split; [apply expand_passes; assumption|].
  assert (Htake : length (take (LOG_BUFFER_SIZE - 1) out) = (LOG_BUFFER_SIZE - 1)%nat)
    by (rewrite length_take; lia).
  split.
  { unfold tx_of, msg_after. cbn [pData]. rewrite Htake.
    rewrite drop_ge; [reflexivity|].
    rewrite length_map, length_seq. unfold LOG_BUFFER_SIZE. lia. }
  split; [apply length_msg_after|].
  split; [apply payload_tx_of|].
  split.
  { unfold tx_of. cbn [Size].
    pose proof (c_str_length (take (LOG_BUFFER_SIZE - 1) out)). lia. }
  intros Hc. rewrite payload_tx_of. unfold tx_of. cbn [Size].
  rewrite (c_str_no_nul _ Hc). split; [reflexivity | exact Htake].
Qed.

Lemma oversized_expansion_truncated_witness :
  exists c,
    LOG_ERROR main_site (repeat "e"%char 150) [] boot
      = Ok tt (set_huart1 (huart1 boot ++ [c]) boot)
    /\ length (pData c) = LOG_BUFFER_SIZE
    /\ (Size c <= LOG_BUFFER_SIZE - 1)%nat.
Proof.
  pose proof (oversized_expansion_truncated ERROR main_site (repeat "e"%char 150) [] 
                (layout ERROR main_site (repeat "e"%char 150)) boot) as H.
  cbn [passes severity] in H.
  destruct H as (c & Hrun & _ & Hlen & _ & Hsize & _).
  - vm_compute. reflexivity.
  - vm_compute. lia.
  - exists c. split; [exact Hrun|]. split; [exact Hlen | exact Hsize].
Defined.

(* ======================================================================= *)
(** ** The raw path                                                         *)
(* ======================================================================= *)

(** C7, as stated, fails: [LOG_RAW("%s", s)] with [s] of 130 bytes, under the
    global level OFF, transmits the first 127 bytes of the substituted text,
    not the text. *)
Lemma LOG_RAW_cuts_long_text :
  vformat (lit "%s") [va_str (repeat "b"%char 130)] = Some (repeat "b"%char 130)
  /\ sent <$> final (LOG_RAW main_site (lit "%s") [va_str (repeat "b"%char 130)]
                       (set_gLogLevel LOG_LEVEL_OFF boot))
     = Some [repeat "b"%char 127]
  /\ repeat "b"%char 127 <> repeat "b"%char 130.
Proof.
  repeat split; try (vm_compute; reflexivity).
  vm_compute. discriminate.
Qed.

(** C7, amended.  Whatever the global level and the log instances,
    [LOG_RAW] renders and transmits: its one payload is the substituted text
    cut to its first [LOG_BUFFER_SIZE - 1] bytes and read as a C string, a
    prefix of the text with nothing put before it; it is the text itself
    whenever the text is shorter than the buffer and holds no NUL. *)
Theorem LOG_RAW_unconditional (site : call_site) (fmt : list ascii)
    (ap : list va_arg) (text : list ascii) (st : machine) :
  vformat fmt ap = Some text ->
  exists st',
    LOG_RAW site fmt ap st = Ok tt st'
    /\ sent st' = sent st ++ [wire text]
    /\ wire text `prefix_of` text
    /\ ((length text < LOG_BUFFER_SIZE)%nat -> clean text -> wire text = text).
Proof.
  intros Htext.
  destruct (expand_sent RAW site fmt ap text st eq_refl Htext) as (st' & Hrun & Hsent & _).
  exists st'. split; [exact Hrun|]. split; [exact Hsent|].
  split; [apply wire_prefix_of | apply wire_short].
Qed.

Lemma LOG_RAW_unconditional_witness :
  exists st',
    LOG_RAW main_site (lit "Unformatted %s %d") [va_str (lit "message"); va_int 7]
      (set_gLogLevel LOG_LEVEL_OFF boot) = Ok tt st'
    /\ sent st' = [lit "Unformatted message 7"].
Proof.
  destruct (LOG_RAW_unconditional main_site (lit "Unformatted %s %d")
              [va_str (lit "message"); va_int 7] (lit "Unformatted message 7")
              (set_gLogLevel LOG_LEVEL_OFF boot))
    as (st' & Hrun & Hsent & _ & Hwhole).
  - vm_compute. reflexivity.
  - exists st'. split; [exact Hrun|].
    rewrite Hsent, Hwhole.
    + reflexivity.
    + vm_compute. lia.
    + unfold clean. vm_compute. repeat constructor; discriminate.
Defined.

(* ======================================================================= *)
(** ** A run of calls under the global threshold WARNING                    *)
(* ======================================================================= *)






(* ======================================================================= *)
(** ** The array and the length handed to the transmit primitive            *)
(* ======================================================================= *)

Lemma tx_of_c_string (st : machine) (out : list ascii) : c_string_call (tx_of st out).
Proof.
  assert (Hstr : strlen (pData (tx_of st out)) = Some (Size (tx_of st out)))
    by apply strlen_terminated.
  assert (Hlen : length (pData (tx_of st out)) = LOG_BUFFER_SIZE)
    by apply length_msg_after.
  destruct (strlen_sound _ _ Hstr) as (Hlt & Hnul & Htake).
  assert (Hpay : length (payload (tx_of st out)) = Size (tx_of st out)).
  { unfold payload. rewrite length_take. lia. }
  unfold c_string_call. repeat split; try assumption.
  - rewrite <- Hlen. exact Hlt.
  - rewrite Hpay. rewrite Hlen in Hlt. unfold LOG_BUFFER_SIZE in Hlt. lia.
Qed.

(** C10.  Every logging macro, raw or decorated, that returns normally made
    at most one call of the transmit primitive, and in that call the array is
    NUL-terminated, the length is the [strlen] of the array, and that length
    is below [LOG_BUFFER_SIZE]: at most 127 bytes are transmitted.  A call
    whose guard passes and whose format has an expansion does return
    normally, with exactly one such call. *)
Theorem transmit_gets_c_string (m : log_macro) (site : call_site)
    (fmt : list ascii) (ap : list va_arg) (st : machine) :
  (forall st',
     expand m site fmt ap st = Ok tt st' ->
     exists new,
       huart1 st' = huart1 st ++ new
       /\ (length new <= 1)%nat
       /\ Forall c_string_call new)
  /\ (forall out,
        passes m st = true ->
        vformat (format_of m fmt) (args_of m site ap) = Some out ->
        exists c,
          expand m site fmt ap st = Ok tt (set_huart1 (huart1 st ++ [c]) st)
          /\ c_string_call c).
Proof.
  split.
  - intros st'. rewrite expand_unfold. destruct (passes m st).
    + destruct (vformat (format_of m fmt) (args_of m site ap)) as [out|] eqn:Hout.
      * rewrite (emit_ok _ _ _ _ Hout). intros [= <-].
        exists [tx_of st out]. split; [reflexivity|]. split; [simpl; lia|].
        constructor; [apply tx_of_c_string | constructor].
      * rewrite (emit_undefined _ _ _ Hout). discriminate.
    + intros [= <-]. exists []. split; [symmetry; apply app_nil_r|].
      split; [simpl; lia | constructor].
  - intros out Hp Hout. exists (tx_of st out).
    split; [apply expand_passes; assumption | apply tx_of_c_string].
Qed.

Lemma transmit_gets_c_string_witness :
  exists c,
    LOG_ERROR main_site (repeat "e"%char 300) [] boot
      = Ok tt (set_huart1 (huart1 boot ++ [c]) boot)
    /\ c_string_call c.
Proof.
  apply (proj2 (transmit_gets_c_string ERROR main_site (repeat "e"%char 300) [] boot)
           (layout ERROR main_site (repeat "e"%char 300))).
  - reflexivity.
  - vm_compute. reflexivity.
Defined.

(* ======================================================================= *)
(** ** Runs of client programs                                              *)
(* ======================================================================= *)

Lemma expand_effect (m : log_macro) (site : call_site) (fmt : list ascii)
    (ap : list va_arg) (st st' : machine) :
  expand m site fmt ap st = Ok tt st' -> effect st st'.
Proof.
  rewrite expand_unfold. destruct (passes m st).
  - destruct (vformat (format_of m fmt) (args_of m site ap)) as [out|] eqn:Hout.
    + rewrite (emit_ok _ _ _ _ Hout). intros [= <-]. apply effect_transmit.
    + rewrite (emit_undefined _ _ _ Hout). discriminate.
  - intros [= <-]. apply effect_none.
Qed.

Lemma api_step_effect (a : api_call) (st st' : machine) :
  api_step a st = Ok tt st' -> effect st st'.
Proof.
  destruct a as [lvl | inst lvl | id lvl | c]; cbn [api_step].
  - unfold LOGGER_SET_LOGGING_LEVEL, bind, assert.
    destruct (Z.geb_spec lvl LOG_LEVEL_DEBUG) as [Hge|]; [|discriminate].
    destruct (Z.ltb_spec lvl LOG_LEVEL_COUNT) as [Hlt|]; [|discriminate].
    cbn. intros [= <-]. apply effect_global.
    unfold LOG_LEVEL_DEBUG, LOG_LEVEL_ERROR, LOG_LEVEL_COUNT in *. lia.
  - destruct inst as [a|]; cbn [LOG_MODULE_SET_LEVEL].
    + destruct (log_inst st !! a) as [i|] eqn:Ha; [|discriminate].
      intros [= <-]. apply (effect_level st a i lvl Ha).
    + intros [= <-]. apply effect_none.
  - unfold bind, LOG_MODULE_REGISTER.
    destruct (log_inst st !! id) eqn:Hid; [discriminate|].
    intros [= <-]. apply (effect_register st id lvl Hid).
  - apply expand_effect.
Qed.

(** An invariant of every effect is an invariant of every run. *)
Lemma api_run_invariant (P : machine -> Prop) :
  (forall st st', P st -> effect st st' -> P st') ->
  forall p st st', P st -> api_run p st = Ok tt st' -> P st'.
Proof.
  intros Hstep p. induction p as [|a p IH]; intros st st' HP; cbn [api_run].
  - intros [= <-]. exact HP.
  - unfold bind. destruct (api_step a st) as [[] st1|f] eqn:Ha; [|discriminate].
    intros Hrun. apply (IH st1 st'); [|exact Hrun].
    apply (Hstep st st1 HP). apply (api_step_effect a), Ha.
Qed.

Lemma set_log_inst_same (st : machine) : set_log_inst (log_inst st) st = st.
Proof. destruct st. reflexivity. Qed.

(** X1.  [LOG_MODULE_REGISTER(name, level)] of a name not yet defined yields
    the pointer [LOG_MODULE_NAME(name)] to a new object [{#name, level}],
    leaves the other objects, the global level and the transmissions as they
    were, and a [LOG_MODULE_SET_LEVEL] through that pointer then returns
    normally and is read back in the object. *)
Theorem LOG_MODULE_REGISTER_defines (id : string) (lvl lvl' : log_level_t)
    (st : machine) :
  log_inst st !! id = None ->
  exists st',
    LOG_MODULE_REGISTER id lvl st = Ok (LOG_MODULE_NAME id) st'
    /\ log_inst st' !! id = Some {| name := lit id; level := lvl |}
    /\ (forall b, b <> id -> log_inst st' !! b = log_inst st !! b)
    /\ gLogLevel st' = gLogLevel st
    /\ huart1 st' = huart1 st
    /\ exists st'',
         LOG_MODULE_SET_LEVEL (LOG_MODULE_NAME id) lvl' st' = Ok tt st''
         /\ log_inst st'' !! id = Some {| name := lit id; level := lvl' |}.
Proof.
  intros Hfresh. unfold LOG_MODULE_REGISTER. rewrite Hfresh.
  eexists. split; [reflexivity|]. cbn [log_inst set_log_inst gLogLevel huart1].
  split; [apply lookup_insert_eq|].
  split; [intros b Hb; apply lookup_insert_ne; congruence|].
  split; [reflexivity|]. split; [reflexivity|].
  unfold LOG_MODULE_NAME, LOG_MODULE_SET_LEVEL. cbn [log_inst set_log_inst].
  rewrite lookup_insert_eq. eexists. split; [reflexivity|].
  cbn [log_inst set_log_inst name]. apply lookup_insert_eq.
Qed.

Lemma LOG_MODULE_REGISTER_defines_witness :
  log_inst boot !! "device01" = None
  /\ exists st',
       LOG_MODULE_REGISTER "device01" LOG_LEVEL_INFO boot
         = Ok (LOG_MODULE_NAME "device01") st'
       /\ log_inst st' !! "device01"
          = Some {| name := lit "device01"; level := LOG_LEVEL_INFO |}.
Proof.
  assert (H : log_inst boot !! "device01" = None) by reflexivity.
  split; [exact H|].
  destruct (LOG_MODULE_REGISTER_defines "device01" LOG_LEVEL_INFO LOG_LEVEL_OFF boot H)
    as (st' & Hrun & Hlook & _).
  exists st'. split; [exact Hrun | exact Hlook].
Defined.

(** X2.  Of two [LOG_MODULE_SET_LEVEL] calls on the same instance the second
    wins, and setting the level back to what it was restores the machine
    exactly: disabling then re-enabling a module leaves no trace. *)
Theorem LOG_MODULE_SET_LEVEL_last_wins (a : string) (i : log_instance_t)
    (l1 l2 : log_level_t) (st : machine) :
  log_inst st !! a = Some i ->
  (LOG_MODULE_SET_LEVEL (Some a) l1 ;;; LOG_MODULE_SET_LEVEL (Some a) l2) st
    = LOG_MODULE_SET_LEVEL (Some a) l2 st
  /\ (LOG_MODULE_SET_LEVEL (Some a) l1 ;;; LOG_MODULE_SET_LEVEL (Some a) (level i)) st
     = Ok tt st.
Proof.
  intros Ha.
  assert (Hchain : forall l,
    (LOG_MODULE_SET_LEVEL (Some a) l1 ;;; LOG_MODULE_SET_LEVEL (Some a) l) st
    = Ok tt (set_log_inst (<[a := {| name := name i; level := l |}]> (log_inst st)) st)).
  { intros l. unfold bind, LOG_MODULE_SET_LEVEL. rewrite Ha.
    cbn [log_inst set_log_inst]. rewrite lookup_insert_eq. cbn [name].
    unfold set_log_inst. cbn [gLogLevel log_inst stale huart1].
    rewrite insert_insert_eq. reflexivity. }
  split.
  - rewrite Hchain. unfold LOG_MODULE_SET_LEVEL. rewrite Ha. reflexivity.
  - rewrite Hchain. f_equal.
    replace {| name := name i; level := level i |} with i by (destruct i; reflexivity).
    rewrite insert_id by exact Ha. apply set_log_inst_same.
Qed.

Lemma LOG_MODULE_SET_LEVEL_last_wins_witness :
  log_inst registered !! "device02"
    = Some {| name := lit "device02"; level := LOG_LEVEL_INFO |}
  /\ (LOG_MODULE_SET_LEVEL (Some "device02") LOG_LEVEL_OFF ;;;
      LOG_MODULE_SET_LEVEL (Some "device02") LOG_LEVEL_INFO) registered
     = Ok tt registered.
Proof.
  assert (H : log_inst registered !! "device02"
              = Some {| name := lit "device02"; level := LOG_LEVEL_INFO |})
    by (vm_compute; reflexivity).
  split; [exact H|].
  exact (proj2 (LOG_MODULE_SET_LEVEL_last_wins "device02" _ LOG_LEVEL_OFF LOG_LEVEL_OFF
                  registered H)).
Defined.

(** X3.  After [LOGGER_SET_LOGGING_LEVEL(level)] with a level of DEBUG ..
    ERROR, a decorated macro of severity [s] transmits its one message when
    [s >= level] and nothing otherwise; the level read back is [level]. *)
Theorem level_set_then_log (lvl s : log_level_t) (m : log_macro) (site : call_site)
    (fmt : list ascii) (ap : list va_arg) (text : list ascii) (st : machine) :
  LOG_LEVEL_DEBUG <= lvl <= LOG_LEVEL_ERROR ->
  severity m = Some s ->
  vformat fmt ap = Some text ->
  exists st',
    (LOGGER_SET_LOGGING_LEVEL lvl ;;; expand m site fmt ap) st = Ok tt st'
    /\ gLogLevel st' = lvl
    /\ sent st' = sent st ++ (if s >=? lvl then [wire (layout m site text)] else []).
Proof.
  intros Hin Hs Htext. unfold bind at 1.
  assert (Hset : LOGGER_SET_LOGGING_LEVEL lvl st = Ok tt (set_gLogLevel lvl st)).
  { unfold LOGGER_SET_LOGGING_LEVEL, bind, assert,
      LOG_LEVEL_DEBUG, LOG_LEVEL_ERROR, LOG_LEVEL_COUNT in *.
    destruct (Z.geb_spec lvl 0); [|lia]. destruct (Z.ltb_spec lvl 4); [|lia].
    reflexivity. }
  rewrite Hset.
  assert (Hp : passes m (set_gLogLevel lvl st) = (s >=? lvl)).
  { unfold passes. rewrite Hs. reflexivity. }
  destruct (s >=? lvl) eqn:Hge.
  - destruct (expand_sent m site fmt ap text _ Hp Htext) as (st' & Hrun & Hsent & Hl & _).
    exists st'. split; [exact Hrun|]. split; [exact Hl | exact Hsent].
  - exists (set_gLogLevel lvl st). split; [apply expand_filtered, Hp|].
    split; [reflexivity|]. unfold sent. cbn [huart1 set_gLogLevel].
    rewrite app_nil_r. reflexivity.
Qed.

Lemma level_set_then_log_witness :
  LOG_LEVEL_DEBUG <= LOG_LEVEL_INFO <= LOG_LEVEL_ERROR
  /\ exists st',
       (LOGGER_SET_LOGGING_LEVEL LOG_LEVEL_INFO ;;;
        LOG_DEBUG main_site (lit "Value x: %d") [va_int 5]) boot = Ok tt st'
       /\ sent st' = [].
Proof.
  assert (H : LOG_LEVEL_DEBUG <= LOG_LEVEL_INFO <= LOG_LEVEL_ERROR)
    by (unfold LOG_LEVEL_DEBUG, LOG_LEVEL_INFO, LOG_LEVEL_ERROR; lia).
  split; [exact H|].
  destruct (level_set_then_log LOG_LEVEL_INFO LOG_LEVEL_DEBUG DEBUG main_site
              (lit "Value x: %d") [va_int 5] (lit "Value x: 5") boot H)
    as (st' & Hrun & _ & Hsent).
  - reflexivity.
  - vm_compute. reflexivity.
  - exists st'. split; [exact Hrun | exact Hsent].
Defined.

(** X4.  No run of calls of the two headers takes the global level out of
    DEBUG .. ERROR: the validated setter is the only writer of [gLogLevel].
    So after any such run [LOG_ERROR] is never filtered: it transmits its
    message. *)
Theorem api_run_level_in_range (p : list api_call) (st st' : machine) :
  level_in_range st ->
  api_run p st = Ok tt st' ->
  level_in_range st'
  /\ forall site fmt ap text,
       vformat fmt ap = Some text ->
       exists st'',
         LOG_ERROR site fmt ap st' = Ok tt st''
         /\ sent st'' = sent st' ++ [wire (layout ERROR site text)].
Proof.
  intros Hst Hrun.
  assert (Hst' : level_in_range st').
  { apply (api_run_invariant level_in_range) with (p := p) (st := st); try assumption.
    intros s s' Hs Heff. destruct Heff; try exact Hs. exact H. }
  split; [exact Hst'|].
  intros site fmt ap text Htext.
  assert (Hp : passes ERROR st' = true).
  { unfold passes, level_in_range in *. cbn [severity].
    apply Z.geb_le. lia. }
  destruct (expand_sent ERROR site fmt ap text st' Hp Htext) as (st'' & Hrun' & Hsent & _).
  exists st''. split; [exact Hrun' | exact Hsent].
Qed.

Lemma api_run_level_in_range_witness :
  level_in_range boot
  /\ exists st',
       api_run readme_client boot = Ok tt st'
       /\ level_in_range st'.
Proof.
  assert (H : level_in_range boot)
    by (unfold level_in_range, LOG_LEVEL_DEBUG, LOG_LEVEL_ERROR; simpl; lia).
  split; [exact H|].
  eexists. split; [vm_compute; reflexivity|].
  apply (api_run_level_in_range readme_client boot _ H). vm_compute. reflexivity.
Defined.

(** X5.  In every run of calls of the two headers each log instance keeps the
    name it was registered under: the object [log_inst_<id>] holds [#id],
    whatever levels were set since. *)
Theorem api_run_names_kept (p : list api_call) (st st' : machine) :
  names_kept st ->
  api_run p st = Ok tt st' ->
  names_kept st'.
Proof.
  apply (api_run_invariant names_kept).
  intros s s' Hs Heff. destruct Heff as [|lvl _|a i lvl Ha|id lvl Hid|out];
    try exact Hs; intros b j; cbn [log_inst set_log_inst].
  - destruct (decide (a = b)) as [<-|Hne].
    + rewrite lookup_insert_eq. intros [= <-]. cbn [name]. apply (Hs a i Ha).
    + rewrite lookup_insert_ne by exact Hne. apply Hs.
  - destruct (decide (id = b)) as [<-|Hne].
    + rewrite lookup_insert_eq. intros [= <-]. reflexivity.
    + rewrite lookup_insert_ne by exact Hne. apply Hs.
Qed.

Lemma api_run_names_kept_witness :
  names_kept boot
  /\ exists st',
       api_run readme_client boot = Ok tt st'
       /\ log_inst st' !! "test"
          = Some {| name := lit "test"; level := LOG_LEVEL_OFF |}
       /\ names_kept st'.
Proof.
  assert (H : names_kept boot).
  { intros id i. unfold boot. cbn [log_inst]. rewrite lookup_empty. discriminate. }
  split; [exact H|].
  eexists. split; [vm_compute; reflexivity|].
  split; [vm_compute; reflexivity|].
  apply (api_run_names_kept readme_client boot _ H). vm_compute. reflexivity.
Defined.

(** X6.  A run of calls of the two headers never rewrites what was already
    transmitted: the calls of the transmit primitive before the run are a
    prefix of those after it, and every call the run added hands over a
    NUL-terminated array of [LOG_BUFFER_SIZE] bytes with its [strlen], below
    [LOG_BUFFER_SIZE], as length. *)
Theorem api_run_transmissions (p : list api_call) (st st' : machine) :
  api_run p st = Ok tt st' ->
  exists new,
    huart1 st' = huart1 st ++ new
    /\ Forall c_string_call new.
Proof.
  apply (api_run_invariant
           (fun s => exists new, huart1 s = huart1 st ++ new /\ Forall c_string_call new)).
  - intros s s' (new & Hnew & Hall) Heff.
    destruct Heff as [|lvl _|a i lvl _|id lvl _|out];
      cbn [huart1 set_gLogLevel set_log_inst set_huart1];
      try (exists new; split; assumption).
    exists (new ++ [tx_of s out]). split.
    + rewrite Hnew, app_assoc. reflexivity.
    + apply Forall_app. split; [exact Hall|].
      constructor; [apply tx_of_c_string | constructor].
  - exists []. split; [symmetry; apply app_nil_r | constructor].
Qed.

Lemma api_run_transmissions_witness :
  exists st' new,
    api_run readme_client boot = Ok tt st'
    /\ huart1 st' = huart1 boot ++ new
    /\ Forall c_string_call new
    /\ length new = 3%nat.
Proof.
  assert (Hrun : exists st', api_run readme_client boot = Ok tt st'
                             /\ length (huart1 st') = 3%nat).
  { eexists. split; vm_compute; reflexivity. }
  destruct Hrun as (st' & Hrun & Hlen).
  destruct (api_run_transmissions readme_client boot st' Hrun) as (new & Hnew & Hall).
  exists st', new. split; [exact Hrun|]. split; [exact Hnew|]. split; [exact Hall|].
  rewrite Hnew in Hlen. exact Hlen.
Defined.

(* ======================================================================= *)
(** ** More on what a logging macro does and does not do                    *)
(* ======================================================================= *)

Lemma passes_same_level (m : log_macro) (st1 st2 : machine) :
  gLogLevel st1 = gLogLevel st2 -> passes m st1 = passes m st2.
Proof. intros H. unfold passes. rewrite H. reflexivity. Qed.

(** X7.  A logging macro that returns normally has changed neither the global
    level nor any log instance, and what was transmitted before is still
    there, first. *)
Theorem logging_keeps_levels (m : log_macro) (site : call_site)
    (fmt : list ascii) (ap : list va_arg) (st st' : machine) :
  expand m site fmt ap st = Ok tt st' ->
  gLogLevel st' = gLogLevel st
  /\ log_inst st' = log_inst st
  /\ huart1 st `prefix_of` huart1 st'.
Proof.
  rewrite expand_unfold. destruct (passes m st).
  - destruct (vformat (format_of m fmt) (args_of m site ap)) as [out|] eqn:Hout.
    + rewrite (emit_ok _ _ _ _ Hout). intros [= <-].
      cbn [gLogLevel log_inst huart1 set_huart1].
      split; [reflexivity|]. split; [reflexivity|]. apply prefix_app_r. reflexivity.
    + rewrite (emit_undefined _ _ _ Hout). discriminate.
  - intros [= <-]. repeat split; reflexivity.
Qed.

Lemma logging_keeps_levels_witness :
  exists st',
    LOG_ERROR test_site (lit "Critical error: %s") [va_str (lit "overrun")] registered
      = Ok tt st'
    /\ log_inst st' = log_inst registered.
Proof.
  assert (Hrun : exists st',
            LOG_ERROR test_site (lit "Critical error: %s") [va_str (lit "overrun")]
              registered = Ok tt st').
  { eexists. vm_compute. reflexivity. }
  destruct Hrun as (st' & Hrun). exists st'. split; [exact Hrun|].
  exact (proj1 (proj2 (logging_keeps_levels ERROR test_site _ _ registered st' Hrun))).
Defined.

Lemma starved_no_expansion (fmt : list ascii) :
  forall ap, starved fmt ap = true -> vformat fmt ap = None.
Proof.
  remember (length fmt) as k eqn:Hk. revert fmt Hk.
  induction k as [k IH] using lt_wf_ind. intros fmt Hk ap.
  destruct fmt as [|c rest]; simpl; [discriminate|].
  destruct (c =? "%")%char.
  - destruct rest as [|d rest']; [discriminate|]. simpl.
    destruct (d =? "%")%char.
    + intros Hs.
      rewrite (IH (length rest') ltac:(simpl in Hk; lia) rest' eq_refl ap Hs).
      reflexivity.
    + destruct ap as [|a ap']; [reflexivity|].
      destruct (convert d a) as [t|]; [|discriminate].
      intros Hs.
      rewrite (IH (length rest') ltac:(simpl in Hk; lia) rest' eq_refl ap' Hs).
      reflexivity.
  - intros Hs.
    rewrite (IH (length rest) ltac:(simpl in Hk; lia) rest eq_refl ap Hs).
    reflexivity.
Qed.

(** X8.  A filtered call does not render.  When the macro's format asks for
    more arguments than the call passes (one of its conversions finds none
    left), the call is undefined exactly when its guard passes, and returns
    normally, the machine unchanged, when it is filtered. *)
Theorem starved_format_only_when_passing (m : log_macro) (site : call_site)
    (fmt : list ascii) (ap : list va_arg) (st : machine) :
  starved (format_of m fmt) (args_of m site ap) = true ->
  expand m site fmt ap st = if passes m st then Stop undefined else Ok tt st.
Proof.
  intros Hs. rewrite expand_unfold. destruct (passes m st); [|reflexivity].
  apply emit_undefined, starved_no_expansion, Hs.
Qed.

Lemma starved_format_only_when_passing_witness :
  starved (format_of DEBUG (lit "Value x: %d")) (args_of DEBUG main_site []) = true
  /\ LOG_DEBUG main_site (lit "Value x: %d") [] boot = Stop undefined
  /\ LOG_DEBUG main_site (lit "Value x: %d") [] (set_gLogLevel LOG_LEVEL_INFO boot)
     = Ok tt (set_gLogLevel LOG_LEVEL_INFO boot).
Proof.
  assert (H : starved (format_of DEBUG (lit "Value x: %d")) (args_of DEBUG main_site [])
              = true) by (vm_compute; reflexivity).
  split; [exact H|]. split.
  - exact (starved_format_only_when_passing DEBUG main_site _ _ boot H).
  - exact (starved_format_only_when_passing DEBUG main_site _ _
             (set_gLogLevel LOG_LEVEL_INFO boot) H).
Defined.

(** X9.  Under any global level, a run of logging calls transmits one message
    per call whose guard passes, in the order of the calls, each as its macro
    lays it out, and nothing for the others; the level is as before. *)
Theorem run_calls_transmits (cs : list log_call) (st : machine) :
  Forall (fun c => passes (call_macro c) st = true ->
                   is_Some (vformat (call_fmt c) (call_args c))) cs ->
  exists st',
    run_calls cs st = Ok tt st'
    /\ sent st' = sent st
         ++ map message_of (List.filter (fun c => passes (call_macro c) st) cs)
    /\ gLogLevel st' = gLogLevel st.
Proof.
  intros Hcs.
  enough (Hgen : forall st1, gLogLevel st1 = gLogLevel st ->
            exists st', run_calls cs st1 = Ok tt st'
              /\ sent st' = sent st1
                   ++ map message_of (List.filter (fun c => passes (call_macro c) st) cs)
              /\ gLogLevel st' = gLogLevel st)
    by (apply Hgen; reflexivity).
  induction Hcs as [|c cs Hc _ IH]; intros st1 Hlvl.
  - exists st1. split; [reflexivity|]. split; [|exact Hlvl].
    cbn [List.filter map]. rewrite app_nil_r. reflexivity.
  - cbn [run_calls List.filter]. unfold bind, run_call.
    destruct (passes (call_macro c) st) eqn:Hp.
    + destruct (Hc eq_refl) as [text Htext].
      assert (Hp1 : passes (call_macro c) st1 = true)
        by (rewrite (passes_same_level _ st1 st Hlvl); exact Hp).
      destruct (expand_sent _ (call_at c) _ _ _ _ Hp1 Htext)
        as (st2 & Hrun2 & Hsent2 & Hlvl2 & _).
      rewrite Hrun2.
      destruct (IH st2 (eq_trans Hlvl2 Hlvl)) as (st' & Hrun & Hsent & Hl).
      exists st'. split; [exact Hrun|]. split; [|exact Hl].
      rewrite Hsent, Hsent2. cbn [map]. unfold message_of at 2. rewrite Htext.
      rewrite <- app_assoc. reflexivity.
    + rewrite expand_filtered
        by (rewrite (passes_same_level _ st1 st Hlvl); exact Hp).
      apply IH, Hlvl.
Qed.

Lemma run_calls_transmits_witness :
  exists st',
    run_calls readme_calls (set_gLogLevel LOG_LEVEL_ERROR boot) = Ok tt st'
    /\ sent st' = [ KRED ++ lit "[ERR][main:115]: " ++ KNRM ++ lit "Error msg iter: 0" ].
Proof.
  destruct (run_calls_transmits readme_calls (set_gLogLevel LOG_LEVEL_ERROR boot))
    as (st' & Hrun & Hsent & _).
  - unfold readme_calls. repeat constructor; intros _; vm_compute; eexists; reflexivity.
  - exists st'. split; [exact Hrun|]. rewrite Hsent. vm_compute. reflexivity.
Defined.

Lemma wire_cut_at_NUL (pre post : list ascii) :
  clean pre -> (length pre < LOG_BUFFER_SIZE)%nat ->
  wire (pre ++ zero :: post) = pre.
Proof.
  intros Hc Hlen. unfold wire. rewrite take_app, (take_ge pre) by lia.
  rewrite (c_str_app_clean _ _ Hc).
  destruct (LOG_BUFFER_SIZE - 1 - length pre)%nat; simpl; apply app_nil_r.
Qed.

(** X10.  A NUL in the expansion, as [%c] with the argument 0 puts one there,
    ends the message: of an expansion [pre ++ NUL ++ post] with [pre] shorter
    than the buffer, exactly [pre] is transmitted. *)
Theorem NUL_ends_message (m : log_macro) (site : call_site) (fmt : list ascii)
    (ap : list va_arg) (pre post : list ascii) (st : machine) :
  passes m st = true ->
  vformat (format_of m fmt) (args_of m site ap) = Some (pre ++ zero :: post) ->
  clean pre ->
  (length pre < LOG_BUFFER_SIZE)%nat ->
  exists st',
    expand m site fmt ap st = Ok tt st'
    /\ sent st' = sent st ++ [pre].
Proof.
  intros Hp Hout Hc Hlen. eexists.
  split; [apply (expand_passes _ _ _ _ _ _ Hp Hout)|].
  rewrite sent_snoc, payload_tx_of. fold (wire (pre ++ zero :: post)).
  rewrite wire_cut_at_NUL by assumption. reflexivity.
Qed.

Lemma NUL_ends_message_witness :
  exists st',
    LOG_RAW main_site (lit "ab%ccd") [va_int 0] boot = Ok tt st'
    /\ sent st' = [lit "ab"].
Proof.
  apply (NUL_ends_message RAW main_site (lit "ab%ccd") [va_int 0] (lit "ab") (lit "cd") boot).
  - reflexivity.
  - vm_compute. reflexivity.
  - unfold clean. vm_compute. repeat constructor; discriminate.
  - vm_compute. lia.
Defined.

(** X11.  An expansion without NUL is transmitted whole exactly when it is
    shorter than [LOG_BUFFER_SIZE]; otherwise its first
    [LOG_BUFFER_SIZE - 1] bytes are: an expansion of 127 bytes is the longest
    that gets through uncut. *)
Theorem message_whole_iff_fits (m : log_macro) (site : call_site) (fmt : list ascii)
    (ap : list va_arg) (out : list ascii) (st : machine) :
  passes m st = true ->
  vformat (format_of m fmt) (args_of m site ap) = Some out ->
  clean out ->
  exists st',
    expand m site fmt ap st = Ok tt st'
    /\ sent st' = sent st ++ [take (LOG_BUFFER_SIZE - 1) out]
    /\ (take (LOG_BUFFER_SIZE - 1) out = out <-> (length out < LOG_BUFFER_SIZE)%nat).
Proof.
  intros Hp Hout Hc. eexists.
  split; [apply (expand_passes _ _ _ _ _ _ Hp Hout)|].
  split.
  - rewrite sent_snoc, payload_tx_of.
    rewrite c_str_no_nul; [reflexivity|]. apply Forall_take, Hc.
  - split.
    + intros Heq. apply (f_equal length) in Heq. rewrite length_take in Heq.
      unfold LOG_BUFFER_SIZE in *. lia.
    + intros Hlen. apply take_ge. lia.
Qed.

Lemma message_whole_iff_fits_witness :
  exists st',
    LOG_RAW main_site (repeat "a"%char 127) [] boot = Ok tt st'
    /\ sent st' = [repeat "a"%char 127].
Proof.
  destruct (message_whole_iff_fits RAW main_site (repeat "a"%char 127) []
              (repeat "a"%char 127) boot) as (st' & Hrun & Hsent & Hiff).
  - reflexivity.
  - vm_compute. reflexivity.
  - unfold clean. apply List.Forall_forall. intros c Hin.
    apply repeat_spec in Hin. subst c. discriminate.
  - exists st'. split; [exact Hrun|]. rewrite Hsent. vm_compute. reflexivity.
Defined.

Lemma layout_badge (m : log_macro) (site : call_site) (text : list ascii) :
  m <> RAW -> exists rest, layout m site text = badge m ++ rest.
Proof.
  intros Hm. destruct m; try contradiction; eexists;
    unfold layout, badge, debug_layout, Spec.global_layout, Spec.header,
      Spec.color, Spec.tag;
    rewrite <- ?app_assoc; reflexivity.
Qed.

Lemma badge_short_clean (m : log_macro) :
  (length (badge m) < LOG_BUFFER_SIZE)%nat /\ clean (badge m).
Proof.
  destruct m; (split; [vm_compute; lia|]);
    unfold clean; vm_compute; repeat constructor; discriminate.
Qed.

(** X12.  However long the function name and the user text, every message of
    a decorated macro starts with the macro's color code, its tag and the
    opening bracket: the severity of a message can always be read off the
    wire. *)
Theorem message_starts_with_badge (m : log_macro) (site : call_site)
    (fmt : list ascii) (ap : list va_arg) (text : list ascii) (st : machine) :
  m <> RAW ->
  passes m st = true ->
  vformat fmt ap = Some text ->
  exists st' msg,
    expand m site fmt ap st = Ok tt st'
    /\ sent st' = sent st ++ [msg]
    /\ badge m `prefix_of` msg.
Proof.
  intros Hm Hp Htext.
  destruct (expand_sent m site fmt ap text st Hp Htext) as (st' & Hrun & Hsent & _).
  exists st', (wire (layout m site text)).
  split; [exact Hrun|]. split; [exact Hsent|].
  destruct (layout_badge m site text Hm) as [rest ->].
  destruct (badge_short_clean m) as [Hlen Hc].
  apply wire_prefix; assumption.
Qed.

Lemma message_starts_with_badge_witness :
  exists st' msg,
    LOG_WARNING long_site (repeat "w"%char 300) [] boot = Ok tt st'
    /\ sent st' = sent boot ++ [msg]
    /\ KYEL ++ lit "[WRN][" `prefix_of` msg.
Proof.
  apply (message_starts_with_badge WARNING long_site (repeat "w"%char 300) []
           (repeat "w"%char 300) boot).
  - discriminate.
  - reflexivity.
  - vm_compute. reflexivity.
Defined.

(** X13.  For INFO, WARNING and ERROR, when the decoration fits the buffer,
    the message is the whole decoration followed by the first
    [LOG_BUFFER_SIZE - 1 - length decoration] bytes of the user text: the
    decoration is paid for out of the room of the text. *)
Theorem user_text_budget (m : log_macro) (site : call_site) (fmt : list ascii)
    (ap : list va_arg) (text : list ascii) (st : machine) :
  m = INFO \/ m = WARNING \/ m = ERROR ->
  passes m st = true ->
  vformat fmt ap = Some text ->
  clean (__func__ site) ->
  clean text ->
  (length (Spec.header m site) < LOG_BUFFER_SIZE)%nat ->
  exists st',
    expand m site fmt ap st = Ok tt st'
    /\ sent st' = sent st
         ++ [Spec.header m site
               ++ take (LOG_BUFFER_SIZE - 1 - length (Spec.header m site)) text].
Proof.
  intros Hm Hp Htext Hf Ht Hlen.
  destruct (expand_sent m site fmt ap text st Hp Htext) as (st' & Hrun & Hsent & _).
  exists st'. split; [exact Hrun|]. rewrite Hsent. do 2 f_equal.
  assert (Hl : layout m site text = Spec.header m site ++ text)
    by (destruct Hm as [-> | [-> | ->]]; reflexivity).
  rewrite Hl. unfold wire. rewrite take_app, (take_ge (Spec.header m site)) by lia.
  apply c_str_no_nul. unfold clean in *. apply Forall_app. split.
  - apply header_clean, Hf.
  - apply Forall_take, Ht.
Qed.

Lemma user_text_budget_witness :
  exists st',
    LOG_INFO main_site (repeat "i"%char 200) [] boot = Ok tt st'
    /\ sent st' = [KGRN ++ lit "[INF][main:114]: " ++ KNRM ++ repeat "i"%char 101].
Proof.
  destruct (user_text_budget INFO main_site (repeat "i"%char 200) []
              (repeat "i"%char 200) boot) as (st' & Hrun & Hsent).
  - auto.
  - reflexivity.
  - vm_compute. reflexivity.
  - unfold clean. vm_compute. repeat constructor; discriminate.
  - unfold clean. apply List.Forall_forall. intros c Hin.
    apply repeat_spec in Hin. subst c. discriminate.
  - vm_compute. lia.
  - exists st'. split; [exact Hrun|]. rewrite Hsent. vm_compute. reflexivity.
Defined.

Lemma debug_header_clean (site : call_site) :
  clean (__func__ site) -> clean (debug_header site).
Proof.
  intros Hf. unfold debug_header, clean.
  rewrite !Forall_app. repeat split; try assumption; try apply decimal_clean;
    repeat constructor; discriminate.
Qed.

(** X14.  [LOG_DEBUG] writes its reset code after the user text, so the reset
    code is the first thing a long line loses: once decoration and text
    together reach [LOG_BUFFER_SIZE - 1] bytes, the message is the first
    [LOG_BUFFER_SIZE - 1] bytes of decoration and text and no byte of the
    reset code is transmitted. *)
Theorem LOG_DEBUG_long_line_loses_reset (site : call_site) (fmt : list ascii)
    (ap : list va_arg) (text : list ascii) (st : machine) :
  passes DEBUG st = true ->
  vformat fmt ap = Some text ->
  clean (__func__ site) ->
  clean text ->
  (LOG_BUFFER_SIZE - 1 <= length (debug_header site ++ text))%nat ->
  exists st',
    LOG_DEBUG site fmt ap st = Ok tt st'
    /\ sent st' = sent st ++ [take (LOG_BUFFER_SIZE - 1) (debug_header site ++ text)].
Proof.
  intros Hp Htext Hf Ht Hlen.
  destruct (expand_sent DEBUG site fmt ap text st Hp Htext) as (st' & Hrun & Hsent & _).
  exists st'. split; [exact Hrun|]. rewrite Hsent. do 2 f_equal.
  assert (Hl : layout DEBUG site text = (debug_header site ++ text) ++ KNRM).
  { unfold layout, debug_layout, debug_header. rewrite <- !app_assoc. reflexivity. }
  rewrite Hl. unfold wire. rewrite take_app_le by exact Hlen.
  apply c_str_no_nul, Forall_take. unfold clean in *. apply Forall_app. split.
  - apply debug_header_clean, Hf.
  - exact Ht.
Qed.

Lemma LOG_DEBUG_long_line_loses_reset_witness :
  exists st',
    LOG_DEBUG main_site (repeat "d"%char 105) [] boot = Ok tt st'
    /\ sent st' = [KWHT ++ lit "[DBG][main:114]: " ++ repeat "d"%char 105].
Proof.
  destruct (LOG_DEBUG_long_line_loses_reset main_site (repeat "d"%char 105) []
              (repeat "d"%char 105) boot) as (st' & Hrun & Hsent).
  - reflexivity.
  - vm_compute. reflexivity.
  - unfold clean. vm_compute. repeat constructor; discriminate.
  - unfold clean. apply List.Forall_forall. intros c Hin.
    apply repeat_spec in Hin. subst c. discriminate.
  - vm_compute. lia.
  - exists st'. split; [exact Hrun|]. rewrite Hsent. vm_compute. reflexivity.
Defined.


(** X16.  The filter is monotone both ways: a call that passes under a level
    passes under every lower level, and under any one level a macro of higher
    severity passes whenever one of lower severity does; [LOG_RAW] always
    passes. *)
Theorem filter_monotone (t1 t2 : log_level_t) (st : machine) :
  (forall m, t1 <= t2 ->
             passes m (set_gLogLevel t2 st) = true ->
             passes m (set_gLogLevel t1 st) = true)
  /\ (passes DEBUG st = true -> passes INFO st = true)
  /\ (passes INFO st = true -> passes WARNING st = true)
  /\ (passes WARNING st = true -> passes ERROR st = true)
  /\ passes RAW st = true.
Proof.
  unfold passes. cbn [severity gLogLevel set_gLogLevel].
  unfold LOG_LEVEL_DEBUG, LOG_LEVEL_INFO, LOG_LEVEL_WARNING, LOG_LEVEL_ERROR.
  split.
  - intros m Hle. destruct m; cbn [severity]; try reflexivity;
      rewrite !Z.geb_le; lia.
  - repeat split; rewrite ?Z.geb_le; lia.
Qed.

Lemma filter_monotone_witness :
  LOG_LEVEL_INFO <= LOG_LEVEL_ERROR
  /\ passes ERROR (set_gLogLevel LOG_LEVEL_ERROR boot) = true
  /\ passes ERROR (set_gLogLevel LOG_LEVEL_INFO boot) = true.
Proof.
  assert (Hle : LOG_LEVEL_INFO <= LOG_LEVEL_ERROR)
    by (unfold LOG_LEVEL_INFO, LOG_LEVEL_ERROR; lia).
  assert (Hp : passes ERROR (set_gLogLevel LOG_LEVEL_ERROR boot) = true) by reflexivity.
  split; [exact Hle|]. split; [exact Hp|].
  exact (proj1 (filter_monotone LOG_LEVEL_INFO LOG_LEVEL_ERROR boot) ERROR Hle Hp).
Defined.
